(** * reader: highlight model, query builder, migration and chunked indexing

    A shallow embedding of the parts of [reader] that carry the
    invariants of its specification:

    - [reader/types.py]: [HighlightedString] (construction, [extract],
      [split], [apply]);
    - [reader/_sql_utils.py]: [BaseQuery], [ScrollingWindowMixin] and
      [Query];
    - the schema migration engine and the chunked index update, which are
      only described by the specification and exercised by the tests.

    Python [str] values are sequences of code points; here a character is
    an [ascii], read as a code point below 256. *)

From Stdlib Require Import ZArith String Ascii Bool Lia Arith List DecimalString.
From Stdlib Require Import Permutation Sorted.
Import ListNotations.

Set Implicit Arguments.

(** ** Python built-ins shared by the modules *)

Module Py.

Section Sorted.
Variables (A K : Type).
Variable key : A -> K.
Variable ltb : K -> K -> bool.

(** [sorted(xs, key=key)] is stable and only uses [<] on the keys.  An
    element is put in front of the first element of the already sorted
    rest whose key is not smaller than its own. *)
Fixpoint insert_stable (x : A) (l : list A) : list A :=
  match l with
  | [] => [x]
  | y :: l' => if ltb (key y) (key x) then y :: insert_stable x l' else x :: l
  end.

Definition sorted (l : list A) : list A := fold_right insert_stable [] l.

Definition key_le (a b : A) : Prop := ltb (key b) (key a) = false.
End Sorted.

(** [s[lo:hi]] for a sequence [s], with Python's treatment of negative and
    out-of-range bounds ([None] is an omitted bound). *)
Definition clamp_index (len i : Z) : Z :=
  if (i <? 0)%Z then Z.max 0 (i + len) else Z.min i len.

Definition slice_of (A : Type) (s : list A) (lo hi : option Z) : list A :=
  let n := Z.of_nat (length s) in
  let l := match lo with None => 0%Z | Some i => clamp_index n i end in
  let h := match hi with None => n | Some i => clamp_index n i end in
  firstn (Z.to_nat (h - l)) (skipn (Z.to_nat l) s).

(** [enumerate(xs, start)] *)
Fixpoint enumerate_from (A : Type) (start : nat) (xs : list A) : list (nat * A) :=
  match xs with
  | [] => []
  | x :: xs' => (start, x) :: enumerate_from (S start) xs'
  end.

(** *** Facts about lists *)

Lemma In_skipn (A : Type) (n : nat) (l : list A) (x : A) :
  In x (skipn n l) -> In x l.
Proof.
  revert l. induction n as [|n IH]; intros [|y l]; simpl; auto.
Qed.

Lemma In_firstn (A : Type) (n : nat) (l : list A) (x : A) :
  In x (firstn n l) -> In x l.
Proof.
  revert l. induction n as [|n IH]; intros [|y l]; simpl; try tauto.
  intros [H|H]; auto.
Qed.

Lemma skipn_app_2 (A : Type) (n : nat) (l l' : list A) :
  skipn (length l + n) (l ++ l') = skipn n l'.
Proof. induction l as [|x l IH]; simpl; [reflexivity|exact IH]. Qed.



(** *** Facts about [sorted] *)

Section SortedFacts.
Variables (A K : Type).
Variable key : A -> K.
Variable ltb : K -> K -> bool.

Local Abbreviation ins := (insert_stable key ltb).
Local Abbreviation srt := (sorted key ltb).
Local Abbreviation le := (key_le key ltb).

Lemma insert_stable_perm (x : A) (l : list A) : Permutation (ins x l) (x :: l).
Proof.
    induction l as [|y l IH]; simpl; [reflexivity|].
    destruct (ltb (key y) (key x)); [|reflexivity].
    rewrite IH. apply perm_swap.
Qed.

Lemma sorted_perm (l : list A) : Permutation (srt l) l.
Proof.
    induction l as [|x l IH]; simpl; [reflexivity|].
    rewrite insert_stable_perm. now constructor.
Qed.


Lemma sorted_Forall (P : A -> Prop) (l : list A) : Forall P l -> Forall P (srt l).
Proof.
    intros H. rewrite Forall_forall in *. intros x Hx.
    apply H. eapply Permutation_in; [apply sorted_perm|exact Hx].
Qed.

  (** A list that is already in order is returned as it is. *)
Lemma sorted_id (l : list A) : Sorted le l -> srt l = l.
Proof.
    induction 1 as [|x l Hs IH Hd]; simpl; [reflexivity|].
    rewrite IH. destruct Hd as [|y l' Hxy]; simpl; [reflexivity|].
    unfold key_le in Hxy. now rewrite Hxy.
Qed.

  (** Stability: the elements selected by a predicate that holds of no two
      elements with strictly ordered keys keep their relative order. *)
Section Stable.
Variable P : A -> bool.
Hypothesis P_class :
      forall x y, ltb (key y) (key x) = true -> P x = true -> P y = false.

Lemma insert_stable_filter (x : A) (l : list A) :
      filter P (ins x l) = filter P (x :: l).
    Proof.
      induction l as [|y l IH]; simpl; [reflexivity|].
      destruct (ltb (key y) (key x)) eqn:E; [|reflexivity].
      simpl. rewrite IH. simpl.
      destruct (P x) eqn:Px; [|reflexivity].
      now rewrite (P_class E Px).
    Qed.

Lemma sorted_filter (l : list A) : filter P (srt l) = filter P l.
    Proof.
      induction l as [|x l IH]; simpl; [reflexivity|].
      rewrite insert_stable_filter. simpl. now rewrite IH.
    Qed.
End Stable.

Section Order.
Hypothesis ltb_asym : forall a b, ltb a b = true -> ltb b a = false.
Hypothesis le_trans :
      forall a b c, ltb b a = false -> ltb c b = false -> ltb c a = false.

Lemma insert_stable_sorted (x : A) (l : list A) :
      StronglySorted le l -> StronglySorted le (ins x l).
    Proof.
      induction 1 as [|y l Hs IH Hy]; simpl.
      - constructor; constructor.
      - destruct (ltb (key y) (key x)) eqn:E.
        + constructor; [exact IH|].
          rewrite Forall_forall in *. intros z Hz.
          apply (Permutation_in _ (insert_stable_perm x l)) in Hz.
          destruct Hz as [<-|Hz]; [|now apply Hy].
          unfold key_le. now apply ltb_asym.
        + constructor; [now constructor|].
          constructor; [exact E|].
          rewrite Forall_forall in *. intros z Hz.
          unfold key_le. eapply le_trans; [exact E|]. now apply Hy.
    Qed.

Lemma sorted_StronglySorted (l : list A) : StronglySorted le (srt l).
    Proof.
      induction l as [|x l IH]; simpl; [constructor|].
      now apply insert_stable_sorted.
    Qed.
End Order.
End SortedFacts.

(** *** What [sorted] returns depends on the order within each key only *)

Lemma filter_permutation (A : Type) (f : A -> bool) (l l' : list A) :
  Permutation l l' -> Permutation (filter f l) (filter f l').
Proof.
  induction 1 as [|x l l' _ IH|x y l|l l' l'' _ IH1 _ IH2]; simpl.
  - constructor.
  - destruct (f x); [now constructor|exact IH].
  - destruct (f x), (f y); try reflexivity. apply perm_swap.
  - now transitivity (filter f l').
Qed.

Lemma all_same_permutation (A : Type) (a : A) (l l' : list A) :
  Forall (eq a) l -> Permutation l l' -> l = l'.
Proof.
  intros Hl Hp. induction Hp as [|x l l' Hp IH|x y l|l l' l'' Hp1 IH1 Hp2 IH2].
  - reflexivity.
  - inversion Hl; subst. f_equal. now apply IH.
  - inversion Hl as [|? ? <- Hl']; subst. inversion Hl' as [|? ? <- _]; subst.
    reflexivity.
  - rewrite IH1 by assumption. apply IH2. rewrite <- IH1 by assumption.
    assumption.
Qed.

Section SortedUnique.
Variables (A K : Type).
Variable key : A -> K.
Variable ltb : K -> K -> bool.
Hypothesis ltb_asym : forall a b, ltb a b = true -> ltb b a = false.
Hypothesis le_trans :
  forall a b c, ltb b a = false -> ltb c b = false -> ltb c a = false.

(** The elements whose key is neither smaller nor greater than that of
    [x]. *)
Definition same_key (x y : A) : bool :=
  negb (ltb (key x) (key y)) && negb (ltb (key y) (key x)).

Lemma same_key_refl (x : A) : same_key x x = true.
Proof.
  unfold same_key. destruct (ltb (key x) (key x)) eqn:H; [|reflexivity].
  pose proof (ltb_asym H). congruence.
Qed.

Lemma same_key_class (x x' y : A) :
  ltb (key y) (key x') = true -> same_key x x' = true -> same_key x y = false.
Proof.
  unfold same_key. intros Hy Hx. apply andb_prop in Hx. destruct Hx as [H1 H2].
  rewrite negb_true_iff in H1, H2.
  destruct (ltb (key x) (key y)) eqn:E1; [reflexivity|].
  destruct (ltb (key y) (key x)) eqn:E2; [reflexivity|].
  pose proof (le_trans H1 E2). congruence.
Qed.

Lemma filter_head_In (f : A -> bool) (l m : list A) (x : A) :
  filter f l = x :: m -> In x l /\ f x = true.
Proof.
  intros H. apply filter_In. rewrite H. now left.
Qed.

Lemma strongly_sorted_unique (l l' : list A) :
  StronglySorted (key_le key ltb) l -> StronglySorted (key_le key ltb) l' ->
  (forall x, filter (same_key x) l = filter (same_key x) l') -> l = l'.
Proof.
  intros Hl. revert l'. induction Hl as [|x t Ht IH Hx]; intros l' Hl' Hf.
  - destruct l' as [|y t']; [reflexivity|].
    specialize (Hf y). simpl in Hf. now rewrite same_key_refl in Hf.
  - destruct Hl' as [|y t' Ht' Hy].
    { specialize (Hf x). simpl in Hf. now rewrite same_key_refl in Hf. }
    assert (Hxy : y = x).
    { pose proof (Hf x) as Hfx. simpl in Hfx. rewrite same_key_refl in Hfx.
      destruct (same_key x y) eqn:Exy; [now injection Hfx|].
      exfalso.
      symmetry in Hfx. apply filter_head_In in Hfx. destruct Hfx as [Hin _].
      pose proof (Hf y) as Hfy. simpl in Hfy. rewrite same_key_refl in Hfy.
      assert (Eyx : same_key y x = false).
      { unfold same_key in *. now rewrite andb_comm. }
      rewrite Eyx in Hfy. apply filter_head_In in Hfy. destruct Hfy as [Hin' _].
      rewrite Forall_forall in Hx, Hy.
      pose proof (Hx y Hin') as H1. pose proof (Hy x Hin) as H2.
      unfold key_le in H1, H2. unfold same_key in Exy.
      now rewrite H1, H2 in Exy. }
    subst y. f_equal. apply IH; [exact Ht'|].
    intros z. specialize (Hf z). simpl in Hf.
    destruct (same_key z x); [now injection Hf|exact Hf].
Qed.

(** Two lists that hold, for each key, the same elements in the same order
    are sorted into the same list. *)
Lemma sorted_determined (l l' : list A) :
  (forall x, filter (same_key x) l = filter (same_key x) l') ->
  sorted key ltb l = sorted key ltb l'.
Proof.
  intros Hf. apply strongly_sorted_unique.
  - now apply sorted_StronglySorted.
  - now apply sorted_StronglySorted.
  - intros x. rewrite !sorted_filter; [apply Hf| |];
      intros a b Hlt Ha; eapply same_key_class; eassumption.
Qed.

(** When elements with the same key are equal, the order of the input does
    not matter at all. *)
Lemma sorted_permutation (l l' : list A) :
  (forall a b, In a l -> In b l -> same_key a b = true -> a = b) ->
  Permutation l l' -> sorted key ltb l = sorted key ltb l'.
Proof.
  intros Hinj Hp. apply sorted_determined. intros x.
  destruct (filter (same_key x) l) as [|a m] eqn:E.
  - symmetry. apply Permutation_nil.
    rewrite <- E. now apply filter_permutation.
  - rewrite <- E. apply (@all_same_permutation _ a).
    + rewrite Forall_forall. intros b Hb. apply filter_In in Hb.
      destruct Hb as [Hb Hxb].
      pose proof (filter_head_In _ _ E) as [Ha Hxa].
      apply Hinj; try assumption.
      unfold same_key in *. apply andb_prop in Hxa, Hxb.
      destruct Hxa as [A1 A2], Hxb as [B1 B2].
      rewrite negb_true_iff in A1, A2, B1, B2.
      rewrite (le_trans B1 A2), (le_trans A1 B2). reflexivity.
    + now apply filter_permutation.
Qed.
End SortedUnique.

End Py.

(** ** [reader/types.py]: HighlightedString *)

Module Highlight.

Definition str := list ascii.

Definition str_eqb (a b : str) : bool :=
  if list_eq_dec ascii_dec a b then true else false.

(** The built-in [slice(start, stop, step)]. *)
Record slice : Type := Slice { start : option Z; stop : option Z; step : option Z }.

(** [slice(a, b)] *)
Definition slice2 (a b : Z) : slice := Slice (Some a) (Some b) None.

(** The [ValueError]s of the class, with the data their messages format. *)
Inductive error : Type :=
| InvalidHighlight (reason : string) (h : slice)
| OverlappingHighlights (prev h : slice)
| MarkerError (msg : string).

Inductive result (A : Type) : Type :=
| Ok (a : A)
| Raise (e : error).
Arguments Ok {A} a.
Arguments Raise {A} e.

Record HighlightedString : Type := HS { value : str; highlights : list slice }.

(** The chain of [if]/[elif] of the first loop of [__post_init__]: the
    reason a highlight is refused, if any. *)
Definition check_highlight (v : str) (h : slice) : option string :=
  let len := Z.of_nat (length v) in
  match start h, stop h with
  | Some a, Some b =>
      match step h with
      | Some _ => Some "step must be None"%string
      | None =>
          if ((a <? 0) || (b <? 0))%Z then
            Some "start and stop must be equal to or greater than 0"%string
          else if ((a >? len) || (b >? len))%Z then
            Some "start and stop must be less than or equal to the string length"%string
          else if (a >? b)%Z then
            Some "start must be not be greater than stop"%string
          else None
      end
  | _, _ => Some "start and stop must not be None"%string
  end.

Fixpoint check_highlights (v : str) (hs : list slice) : option error :=
  match hs with
  | [] => None
  | h :: rest =>
      match check_highlight v h with
      | Some reason => Some (InvalidHighlight reason h)
      | None => check_highlights v rest
      end
  end.

(** [start] and [stop] of a slice that passed the first loop. *)
Definition istart (h : slice) : Z := match start h with Some a => a | None => 0%Z end.
Definition istop (h : slice) : Z := match stop h with Some b => b | None => 0%Z end.

(** The sort key [(s.start, s.stop)], compared as Python compares tuples. *)
Definition slice_key (h : slice) : Z * Z := (istart h, istop h).

Definition pair_ltb (p q : Z * Z) : bool :=
  ((fst p <? fst q) || ((fst p =? fst q) && (snd p <? snd q)))%Z.

(** [prev_highlight.stop > highlight.start] *)
Definition overlaps (prev h : slice) : bool := (istop prev >? istart h)%Z.

(** The second loop of [__post_init__].  [prev_highlight] is assigned once,
    when it is still [None]; a slice object is always truthy, so the
    branch is not taken again. *)
Fixpoint check_overlap (prev_highlight : option slice) (hs : list slice)
  : option error :=
  match hs with
  | [] => None
  | h :: rest =>
      match prev_highlight with
      | None => check_overlap (Some h) rest
      | Some p =>
          if overlaps p h then Some (OverlappingHighlights p h)
          else check_overlap prev_highlight rest
      end
  end.

(** [__post_init__]: both loops, then the sorted spans are stored. *)
Definition __post_init__ (self : HighlightedString) : result HighlightedString :=
  match check_highlights (value self) (highlights self) with
  | Some e => Raise e
  | None =>
      let sorted_hs := Py.sorted slice_key pair_ltb (highlights self) in
      match check_overlap None sorted_hs with
      | Some e => Raise e
      | None => Ok (HS (value self) sorted_hs)
      end
  end.

(** [HighlightedString(value, highlights)]: the dataclass constructor, which
    ends with [__post_init__]. *)
Definition new (v : str) (hs : list slice) : result HighlightedString :=
  __post_init__ (HS v hs).

(** *** [split] *)

(** [self.value[highlight]]; every constructed object has [step = None]. *)
Definition getitem (v : str) (h : slice) : str := Py.slice_of v (start h) (stop h).

Fixpoint split_from (v : str) (start_ : option Z) (hs : list slice) : list str :=
  match hs with
  | [] => [Py.slice_of v start_ None]
  | h :: rest =>
      Py.slice_of v start_ (start h) :: getitem v h :: split_from v (stop h) rest
  end.

Definition split (s : HighlightedString) : list str :=
  split_from (value s) (Some 0%Z) (highlights s).

(** *** [apply] *)

Section Apply.
Variables before after : str.
Variable func : option (str -> str).

Definition call_func (part : str) : str :=
    match func with Some f => f part | None => part end.

  (** The generator [inner], over [enumerate(self.split())]. *)
Fixpoint inner (parts : list (nat * str)) : list str :=
    match parts with
    | [] => []
    | (index, part) :: rest =>
        (if Nat.eqb (index mod 2) 1 then [before] else [])
        ++ [call_func part]
        ++ (if Nat.eqb (index mod 2) 1 then [after] else [])
        ++ inner rest
    end.

Definition apply (s : HighlightedString) : str :=
    concat (inner (Py.enumerate_from 0 (split s))).
End Apply.

(** *** [extract] *)

Fixpoint starts_with (m text : str) : bool :=
  match m, text with
  | [], _ => true
  | _ :: _, [] => false
  | a :: m', b :: text' => Ascii.eqb a b && starts_with m' text'
  end.

Section Extract.
Variables before after : str.

  (** A marker of the pattern [(before|after)] matching at the head of
      [text]: alternatives are tried from the left.  The markers are taken
      to be non-empty: what [re.split] does with a pattern that matches the
      empty string depends on the version of the interpreter and is not
      modelled, so an empty marker never matches here. *)
Definition marker_at (text : str) : option str :=
    match before with
    | _ :: _ => if starts_with before text then Some before else
        match after with
        | _ :: _ => if starts_with after text then Some after else None
        | [] => None
        end
    | [] =>
        match after with
        | _ :: _ => if starts_with after text then Some after else None
        | [] => None
        end
    end.

  (** [re.split(pattern, text)] with one capturing group: the pieces
      between the matches, with the matched markers in between.  [skip] is
      the number of characters of the current match still to pass over,
      [acc] the current piece, reversed. *)
Fixpoint re_split_go (skip : nat) (acc : str) (text : str) : list str :=
    match text with
    | [] => [rev acc]
    | c :: rest =>
        match skip with
        | S k => re_split_go k acc rest
        | O =>
            match marker_at text with
            | Some m => rev acc :: m :: re_split_go (length m - 1) [] rest
            | None => re_split_go 0 (c :: acc) rest
            end
        end
    end.

Definition re_split (text : str) : list str := re_split_go 0 [] text.

  (** The loop of [extract] over the pieces, with its local variables. *)
Fixpoint extract_loop (pieces : list str) (parts : list str)
           (slices : list slice) (index : Z) (start_ : option Z)
    : result (list str * list slice) :=
    match pieces with
    | [] =>
        match start_ with
        | Some _ => Raise (MarkerError "highlight is never closed")
        | None => Ok (parts, slices)
        end
    | part :: rest =>
        if str_eqb part before then
          match start_ with
          | Some _ => Raise (MarkerError "highlight start marker in highlight")
          | None => extract_loop rest parts slices index (Some index)
          end
        else if str_eqb part after then
          match start_ with
          | None => Raise (MarkerError "unmatched highlight end marker")
          | Some st =>
              extract_loop rest parts (slices ++ [slice2 st index]) index None
          end
        else
          extract_loop rest (parts ++ [part]) slices
                       (index + Z.of_nat (length part)) start_
    end.

Definition extract (text : str) : result HighlightedString :=
    match extract_loop (re_split text) [] [] 0%Z None with
    | Raise e => Raise e
    | Ok (parts, slices) => new (concat parts) slices
    end.
End Extract.

Definition s (x : string) : str := list_ascii_of_string x.

Example extract_doc :
  extract (s ">") (s "<") (s ">one< two") = Ok (HS (s "one two") [slice2 0 3]).
Proof. reflexivity. Qed.

Example split_doc :
  split (HS (s "abcd") [slice2 1 3]) = [s "a"; s "bc"; s "d"].
Proof. reflexivity. Qed.

Example apply_doc :
  apply (s ">") (s "<") None (HS (s "abcd") [slice2 1 3]) = s "a>bc<d".
Proof. reflexivity. Qed.

(** *** Facts about the constructor *)

Definition valid (v : str) (h : slice) : Prop := check_highlight v h = None.

(** No span overlaps a later one, with the comparison of [__post_init__]. *)
Definition non_overlapping (hs : list slice) : Prop :=
  ForallOrdPairs (fun p h => overlaps p h = false) hs.

(** [v[a:b]] for [0 <= a <= b <= len(v)]. *)
Definition span (v : str) (a b : nat) : str := firstn (b - a) (skipn a v).

Lemma pair_ltb_asym (p q : Z * Z) : pair_ltb p q = true -> pair_ltb q p = false.
Proof. unfold pair_ltb. destruct p, q; simpl. lia. Qed.

Lemma pair_le_trans (p q r : Z * Z) :
  pair_ltb q p = false -> pair_ltb r q = false -> pair_ltb r p = false.
Proof. unfold pair_ltb. destruct p, q, r; simpl. lia. Qed.

Lemma valid_inv (v : str) (h : slice) :
  valid v h ->
  exists a b, h = slice2 a b /\ (0 <= a <= b)%Z /\ (b <= Z.of_nat (length v))%Z.
Proof.
  unfold valid, check_highlight. destruct h as [[a|] [b|] [c|]]; simpl; try discriminate.
  destruct (a <? 0)%Z eqn:E1, (b <? 0)%Z eqn:E2; simpl; try discriminate.
  destruct (a >? Z.of_nat (length v))%Z eqn:E3, (b >? Z.of_nat (length v))%Z eqn:E4;
    simpl; try discriminate.
  destruct (a >? b)%Z eqn:E5; try discriminate.
  intros _. exists a, b. split; [reflexivity|]. lia.
Qed.

Lemma valid_slice2 (v : str) (a b : Z) :
  (0 <= a <= b)%Z -> (b <= Z.of_nat (length v))%Z -> valid v (slice2 a b).
Proof.
  intros H1 H2. unfold valid, check_highlight, slice2; simpl.
  replace (a <? 0)%Z with false by lia. replace (b <? 0)%Z with false by lia.
  replace (a >? Z.of_nat (length v))%Z with false by lia.
  replace (b >? Z.of_nat (length v))%Z with false by lia.
  replace (a >? b)%Z with false by lia. reflexivity.
Qed.

Lemma check_highlights_None (v : str) (hs : list slice) :
  check_highlights v hs = None <-> Forall (valid v) hs.
Proof.
  induction hs as [|h hs IH]; simpl.
  - split; [constructor|reflexivity].
  - unfold valid at 1. destruct (check_highlight v h) eqn:E.
    + split; [discriminate|]. intros H. inversion H; subst. unfold valid in *. congruence.
    + rewrite IH. split; [now constructor|]. intros H. now inversion H.
Qed.

(** What the second loop checks: the first span against each later one. *)
Lemma check_overlap_Some_None (p : slice) (hs : list slice) :
  check_overlap (Some p) hs = None <-> Forall (fun h => overlaps p h = false) hs.
Proof.
  induction hs as [|h hs IH]; simpl.
  - split; [constructor|reflexivity].
  - destruct (overlaps p h) eqn:E.
    + split; [discriminate|]. intros H. inversion H; congruence.
    + rewrite IH. split; [now constructor|]. intros H. now inversion H.
Qed.

Lemma check_overlap_None (hs : list slice) :
  check_overlap None hs = None <->
  match hs with
  | [] => True
  | p :: rest => Forall (fun h => overlaps p h = false) rest
  end.
Proof.
  destruct hs as [|p rest]; simpl; [tauto|]. apply check_overlap_Some_None.
Qed.

Lemma non_overlapping_check (hs : list slice) :
  non_overlapping hs -> check_overlap None hs = None.
Proof.
  intros H. apply check_overlap_None. destruct H; [exact I|assumption].
Qed.

(** The constructor succeeds exactly when every span is valid and the first
    span in sorted order overlaps none of the others; it then stores the
    sorted spans. *)
Lemma new_Ok_iff (v : str) (hs : list slice) (x : HighlightedString) :
  new v hs = Ok x <->
  Forall (valid v) hs /\
  check_overlap None (Py.sorted slice_key pair_ltb hs) = None /\
  x = HS v (Py.sorted slice_key pair_ltb hs).
Proof.
  unfold new, __post_init__; cbn [value highlights].
  rewrite <- check_highlights_None.
  destruct (check_highlights v hs); [split; [discriminate|intros [? _]; discriminate]|].
  destruct (check_overlap None _).
  - split; [discriminate|intros (_ & ? & _); discriminate].
  - split; [intros [= <-]; auto|intros (_ & _ & ->); reflexivity].
Qed.

Lemma new_Ok_inv (v : str) (hs : list slice) (x : HighlightedString) :
  new v hs = Ok x ->
  value x = v /\ Forall (valid v) (highlights x) /\
  StronglySorted (Py.key_le slice_key pair_ltb) (highlights x).
Proof.
  intros H. apply new_Ok_iff in H. destruct H as (Hv & _ & ->). simpl.
  split; [reflexivity|]. split.
  - now apply Py.sorted_Forall.
  - apply Py.sorted_StronglySorted; [apply pair_ltb_asym|apply pair_le_trans].
Qed.

(** Valid spans given in order and without overlap are accepted as they
    are. *)
Lemma new_sorted (v : str) (hs : list slice) :
  Forall (valid v) hs -> non_overlapping hs -> new v hs = Ok (HS v hs).
Proof.
  intros Hv Hn.
  assert (Hs : Py.sorted slice_key pair_ltb hs = hs).
  { apply Py.sorted_id.
    induction Hn as [|h hs Hh Hn IH]; [constructor|].
    inversion Hv as [|? ? Hvh Hvhs]; subst.
    constructor; [now apply IH|].
    destruct Hh as [|h' hs' Hhh' _]; constructor.
    inversion Hvhs as [|? ? Hvh' _]; subst.
    apply valid_inv in Hvh, Hvh'.
    destruct Hvh as (a & b & -> & ? & ?), Hvh' as (a' & b' & -> & ? & ?).
    unfold Py.key_le, pair_ltb, slice_key, overlaps, istart, istop, slice2 in *;
      simpl in *. lia. }
  apply new_Ok_iff. rewrite Hs. auto using non_overlapping_check.
Qed.

(** *** Slicing within bounds *)

Lemma slice_of_span (v : str) (a b : Z) :
  (0 <= a <= b)%Z -> (b <= Z.of_nat (length v))%Z ->
  Py.slice_of v (Some a) (Some b) = span v (Z.to_nat a) (Z.to_nat b).
Proof.
  intros H1 H2. unfold Py.slice_of, Py.clamp_index, span.
  replace (a <? 0)%Z with false by lia. replace (b <? 0)%Z with false by lia.
  rewrite !Z.min_l by lia. f_equal. lia.
Qed.

Lemma slice_of_tail (v : str) (a : Z) :
  (0 <= a <= Z.of_nat (length v))%Z ->
  Py.slice_of v (Some a) None = skipn (Z.to_nat a) v.
Proof.
  intros H. unfold Py.slice_of, Py.clamp_index.
  replace (a <? 0)%Z with false by lia. rewrite Z.min_l by lia.
  apply firstn_all2. rewrite length_skipn. lia.
Qed.

Lemma span_app_skipn (v : str) (a b : nat) :
  a <= b -> span v a b ++ skipn b v = skipn a v.
Proof.
  intros H. unfold span.
  replace b with ((b - a) + a) at 2 by lia.
  rewrite <- skipn_skipn. apply firstn_skipn.
Qed.

Lemma span_length (v : str) (a b : nat) :
  a <= b -> b <= length v -> length (span v a b) = b - a.
Proof.
  intros H1 H2. unfold span. rewrite length_firstn, length_skipn. lia.
Qed.

Lemma getitem_span (v : str) (h : slice) :
  valid v h -> getitem v h = span v (Z.to_nat (istart h)) (Z.to_nat (istop h)).
Proof.
  intros H. apply valid_inv in H. destruct H as (a & b & -> & ? & ?).
  unfold getitem. simpl. now apply slice_of_span.
Qed.

(** *** [split] *)

(** Where the plain segment of index [2 * i] starts and stops. *)
Definition plain_start (a : nat) (hs : list slice) (i : nat) : nat :=
  match i with
  | O => a
  | S j => Z.to_nat (istop (nth j hs (slice2 0 0)))
  end.

Definition plain_stop (v : str) (hs : list slice) (i : nat) : nat :=
  match nth_error hs i with
  | Some h => Z.to_nat (istart h)
  | None => length v
  end.

Section SplitFrom.
Variable v : str.

(** The spans still to be visited are valid, start at or after the current
    position and do not overlap. *)
Definition ahead (a : Z) (hs : list slice) : Prop :=
  (0 <= a <= Z.of_nat (length v))%Z /\
  Forall (valid v) hs /\ Forall (fun h => (a <= istart h)%Z) hs /\
  non_overlapping hs.

Lemma ahead_cons (a : Z) (h : slice) (hs : list slice) :
  ahead a (h :: hs) ->
  exists b c, h = slice2 b c /\ (a <= b <= c)%Z /\ ahead c hs.
Proof.
  intros (Ha & Hv & Hs & Hn).
  inversion Hv as [|? ? Hvh Hvhs]; subst.
  inversion Hs as [|? ? Hah _]; subst.
  inversion Hn as [|? ? Hh Hnhs]; subst.
  apply valid_inv in Hvh. destruct Hvh as (b & c & -> & ? & ?).
  exists b, c. unfold istart in Hah; simpl in Hah.
  split; [reflexivity|]. split; [lia|].
  split; [lia|]. split; [assumption|]. split; [|assumption].
  eapply Forall_impl; [|exact Hh]. intros h'. unfold overlaps, istop; simpl. lia.
Qed.

Lemma split_from_length (hs : list slice) (st : option Z) :
  length (split_from v st hs) = 2 * length hs + 1.
Proof.
  revert st. induction hs as [|h hs IH]; intros st; simpl; [reflexivity|].
  rewrite IH. lia.
Qed.

Lemma split_from_concat (hs : list slice) (a : Z) :
  ahead a hs -> concat (split_from v (Some a) hs) = skipn (Z.to_nat a) v.
Proof.
  revert a. induction hs as [|h hs IH]; intros a H.
  - simpl. rewrite app_nil_r. apply slice_of_tail. apply H.
  - pose proof H as (Ha & _).
    apply ahead_cons in H. destruct H as (b & c & -> & Hbc & H).
    pose proof H as (Hc & _).
    simpl. unfold getitem; simpl.
    rewrite IH by assumption.
    rewrite !slice_of_span by lia.
    rewrite span_app_skipn by lia. apply span_app_skipn. lia.
Qed.

Lemma split_from_odd (hs : list slice) (st : option Z) (i : nat) (h : slice) :
  nth_error hs i = Some h ->
  nth_error (split_from v st hs) (2 * i + 1) = Some (getitem v h).
Proof.
  revert st i. induction hs as [|h' hs IH]; intros st [|i] E; simpl in E;
    try discriminate.
  - now injection E as ->.
  - replace (2 * S i + 1) with (S (S (2 * i + 1))) by lia. simpl. now apply IH.
Qed.

Lemma split_from_even (hs : list slice) (a : Z) (i : nat) :
  ahead a hs -> i <= length hs ->
  nth_error (split_from v (Some a) hs) (2 * i) =
  Some (span v (plain_start (Z.to_nat a) hs i) (plain_stop v hs i)).
Proof.
  revert a i. induction hs as [|h hs IH]; intros a i H Hi.
  - simpl in Hi. assert (i = 0) as -> by lia. simpl.
    rewrite slice_of_tail by apply H.
    unfold span, plain_stop; simpl. f_equal. symmetry.
    apply firstn_all2. rewrite length_skipn. lia.
  - pose proof H as (Ha & _).
    apply ahead_cons in H. destruct H as (b & c & -> & Hbc & H).
    pose proof H as (Hc & _).
    destruct i as [|i].
    + simpl. now rewrite slice_of_span by lia.
    + replace (2 * S i) with (S (S (2 * i))) by lia. simpl in Hi.
      cbn [split_from nth_error stop slice2].
      rewrite IH by (assumption || lia).
      f_equal. unfold plain_stop; simpl. f_equal.
      destruct i; reflexivity.
Qed.
End SplitFrom.

(** C8: [split] on a string whose spans are sorted and do not overlap yields
    [2 * len(highlights) + 1] segments whose concatenation is the value;
    the segment of index [2 * i + 1] is the [i]-th highlighted substring and
    the segments of even index, the first and the last among them, are the
    plain text in between. *)
Theorem split_alternates (v : str) (hs : list slice) (x : HighlightedString) :
  new v hs = Ok x ->
  non_overlapping (highlights x) ->
  length (split x) = 2 * length (highlights x) + 1 /\
  concat (split x) = value x /\
  (forall i h, nth_error (highlights x) i = Some h ->
     nth_error (split x) (2 * i + 1) =
     Some (span (value x) (Z.to_nat (istart h)) (Z.to_nat (istop h)))) /\
  (forall i, i <= length (highlights x) ->
     nth_error (split x) (2 * i) =
     Some (span (value x) (plain_start 0 (highlights x) i)
                (plain_stop (value x) (highlights x) i))).
Proof.
  intros Hnew Hn. apply new_Ok_inv in Hnew. destruct Hnew as (Hval & Hv & _).
  destruct x as [xv xhs]; cbn [value highlights] in *. subst xv.
  assert (Ha : ahead v 0 xhs).
  { split; [lia|]. split; [assumption|]. split; [|assumption].
    eapply Forall_impl; [|exact Hv]. intros h Hh. apply valid_inv in Hh.
    destruct Hh as (a & b & -> & ? & ?). unfold istart; simpl. lia. }
  unfold split; cbn [value highlights]. split; [apply split_from_length|].
  split; [now rewrite split_from_concat|].
  split.
  - intros i h E. erewrite split_from_odd by exact E. f_equal.
    apply getitem_span. rewrite Forall_forall in Hv. apply Hv.
    eapply nth_error_In; eassumption.
  - intros i Hi. now rewrite split_from_even.
Qed.

Lemma split_alternates_witness :
  let x := HS (s "abcdef") [slice2 1 3; slice2 3 3; slice2 4 6] in
  length (split x) = 7 /\ concat (split x) = s "abcdef".
Proof.
  assert (Hn : non_overlapping [slice2 1 3; slice2 3 3; slice2 4 6]).
  { repeat constructor. }
  destruct (@split_alternates (s "abcdef") [slice2 4 6; slice2 3 3; slice2 1 3]
              (HS (s "abcdef") [slice2 1 3; slice2 3 3; slice2 4 6])
              eq_refl Hn) as (H1 & H2 & _).
  split; [exact H1|exact H2].
Defined.

(** *** [extract] after [apply] *)

(** The markers for which [extract] undoes [apply] on [v]: both are
    non-empty, neither is a prefix of the other, and the first character
    of neither occurs in [v]. *)
Definition markers_ok (v before after : str) : bool :=
  match before, after with
  | b0 :: _, a0 :: _ =>
      negb (starts_with before after) && negb (starts_with after before)
      && forallb (fun c => negb (Ascii.eqb b0 c) && negb (Ascii.eqb a0 c)) v
  | _, _ => false
  end.

(** [m in v], for strings. *)
Fixpoint occurs (m v : str) : bool :=
  starts_with m v || match v with [] => false | _ :: v' => occurs m v' end.

Lemma starts_with_app (m rest : str) : starts_with m (m ++ rest) = true.
Proof.
  induction m as [|c m IH]; simpl; [reflexivity|].
  now rewrite Ascii.eqb_refl.
Qed.

Lemma starts_with_app_inv (m a rest : str) :
  starts_with m (a ++ rest) = true ->
  starts_with m a = true \/ starts_with a m = true.
Proof.
  revert a. induction m as [|c m IH]; intros [|d a]; simpl; auto.
  destruct (Ascii.eqb c d) eqn:E; simpl; [|discriminate].
  rewrite Ascii.eqb_sym, E. simpl. apply IH.
Qed.

Lemma str_eqb_refl (a : str) : str_eqb a a = true.
Proof. unfold str_eqb. now destruct (list_eq_dec ascii_dec a a). Qed.

Lemma str_eqb_neq (a b : str) : a <> b -> str_eqb a b = false.
Proof. unfold str_eqb. now destruct (list_eq_dec ascii_dec a b). Qed.

Section RoundTrip.
Variables (v before after : str).
Hypothesis Hmarkers : markers_ok v before after = true.

Lemma markers_nonempty :
  exists b0 b' a0 a', before = b0 :: b' /\ after = a0 :: a'.
Proof.
  unfold markers_ok in Hmarkers.
  destruct before as [|b0 b']; [discriminate|].
  destruct after as [|a0 a']; [discriminate|]. now exists b0, b', a0, a'.
Qed.

Lemma markers_incomparable :
  starts_with before after = false /\ starts_with after before = false.
Proof.
  unfold markers_ok in Hmarkers.
  destruct before as [|b0 b']; [discriminate|].
  destruct after as [|a0 a']; [discriminate|].
  apply andb_prop in Hmarkers. destruct Hmarkers as [H _].
  apply andb_prop in H. destruct H as [H1 H2].
  now rewrite !negb_true_iff in *.
Qed.

Lemma markers_distinct : after <> before.
Proof.
  intros E. destruct markers_incomparable as [H _].
  rewrite E in H. rewrite <- (app_nil_r before) in H at 2.
  now rewrite starts_with_app in H.
Qed.

(** A piece of the value: none of its characters starts a marker. *)
Definition plain (p : str) : Prop := forall c, In c p -> In c v.

Lemma plain_no_marker (c : ascii) (text : str) :
  In c v -> marker_at before after (c :: text) = None.
Proof.
  intros Hc. unfold markers_ok in Hmarkers. unfold marker_at.
  destruct before as [|b0 b']; [discriminate|].
  destruct after as [|a0 a']; [discriminate|].
  apply andb_prop in Hmarkers. destruct Hmarkers as [_ H].
  rewrite forallb_forall in H. specialize (H c Hc).
  apply andb_prop in H. destruct H as [H1 H2].
  rewrite negb_true_iff in H1, H2. simpl. now rewrite H1, H2.
Qed.

Lemma plain_span (a b : nat) : plain (span v a b).
Proof.
  intros c Hc. unfold span in Hc.
  eapply Py.In_skipn, Py.In_firstn, Hc.
Qed.

Lemma plain_skipn (a : nat) : plain (skipn a v).
Proof. intros c Hc. eapply Py.In_skipn, Hc. Qed.

(** [re.split] passes over a piece of the value, ... *)
Lemma re_split_plain (p acc rest : str) :
  plain p ->
  re_split_go before after 0 acc (p ++ rest) =
  re_split_go before after 0 (rev p ++ acc) rest.
Proof.
  revert acc. induction p as [|c p IH]; intros acc Hp; [reflexivity|].
  simpl. rewrite plain_no_marker by (apply Hp; now left).
  rewrite IH by (intros d Hd; apply Hp; now right).
  now rewrite <- app_assoc.
Qed.

Lemma re_split_skip (m acc rest : str) :
  re_split_go before after (length m) acc (m ++ rest) =
  re_split_go before after 0 acc rest.
Proof.
  induction m as [|c m IH]; simpl; [|exact IH].
  destruct rest; reflexivity.
Qed.

(** ... and cuts at a marker that matches. *)
Lemma re_split_marker (m acc rest : str) :
  m <> [] -> marker_at before after (m ++ rest) = Some m ->
  re_split_go before after 0 acc (m ++ rest) =
  rev acc :: m :: re_split_go before after 0 [] rest.
Proof.
  intros Hne Hm. destruct m as [|c m]; [congruence|].
  change (re_split_go before after 0 acc ((c :: m) ++ rest)) with
    (match marker_at before after ((c :: m) ++ rest) with
     | Some m0 => rev acc :: m0 :: re_split_go before after (length m0 - 1) [] (m ++ rest)
     | None => re_split_go before after 0 (c :: acc) (m ++ rest)
     end).
  rewrite Hm. replace (length (c :: m) - 1) with (length m) by (simpl; lia).
  now rewrite re_split_skip.
Qed.

Lemma marker_at_before (rest : str) :
  marker_at before after (before ++ rest) = Some before.
Proof.
  destruct markers_nonempty as (b0 & b' & a0 & a' & Hb & Ha).
  unfold marker_at. rewrite starts_with_app. now rewrite Hb.
Qed.

Lemma marker_at_after (rest : str) :
  marker_at before after (after ++ rest) = Some after.
Proof.
  destruct markers_nonempty as (b0 & b' & a0 & a' & Hb & Ha).
  destruct markers_incomparable as [H1 H2].
  unfold marker_at. rewrite starts_with_app.
  destruct (starts_with before (after ++ rest)) eqn:E.
  - apply starts_with_app_inv in E. destruct E; congruence.
  - now rewrite Hb, Ha.
Qed.

Lemma plain_neq_marker (p : str) :
  plain p -> str_eqb p before = false /\ str_eqb p after = false.
Proof.
  intros Hp. destruct markers_nonempty as (b0 & b' & a0 & a' & Hb & Ha).
  split; apply str_eqb_neq; intros ->.
  - pose proof (marker_at_before []) as H1. rewrite app_nil_r in H1.
    assert (H2 : marker_at before after (b0 :: b') = None).
    { apply plain_no_marker, Hp. rewrite Hb. now left. }
    rewrite <- Hb in H2. congruence.
  - pose proof (marker_at_after []) as H1. rewrite app_nil_r in H1.
    assert (H2 : marker_at before after (a0 :: a') = None).
    { apply plain_no_marker, Hp. rewrite Ha. now left. }
    rewrite <- Ha in H2. congruence.
Qed.

(** The text [apply] builds from position [st] on. *)
Fixpoint text_from (st : option Z) (hs : list slice) : str :=
  match hs with
  | [] => Py.slice_of v st None
  | h :: rest =>
      Py.slice_of v st (start h) ++ before ++ getitem v h ++ after
      ++ text_from (stop h) rest
  end.

Lemma inner_text_from (hs : list slice) (st : option Z) (n : nat) :
  n mod 2 = 0 ->
  concat (inner before after None (Py.enumerate_from n (split_from v st hs))) =
  text_from st hs.
Proof.
  revert st n. induction hs as [|h hs IH]; intros st n Hn.
  - cbn [split_from Py.enumerate_from inner text_from]. rewrite Hn.
    cbn [Nat.eqb app call_func concat]. now rewrite app_nil_r.
  - cbn [split_from Py.enumerate_from inner text_from].
    assert (H1 : S n mod 2 = 1).
    { replace (S n) with (1 + n) by lia.
      rewrite Nat.Div0.add_mod, Hn by lia. reflexivity. }
    assert (H2 : S (S n) mod 2 = 0).
    { replace (S (S n)) with (n + 1 * 2) by lia.
      now rewrite Nat.Div0.mod_add. }
    rewrite Hn, H1. cbn [Nat.eqb app call_func].
    rewrite !concat_cons. rewrite (IH _ _ H2).
    cbn [concat app]. reflexivity.
Qed.

(** The pieces [re.split] cuts that text into. *)
Fixpoint pieces_from (st : option Z) (hs : list slice) : list str :=
  match hs with
  | [] => [Py.slice_of v st None]
  | h :: rest =>
      Py.slice_of v st (start h) :: before :: getitem v h :: after
      :: pieces_from (stop h) rest
  end.

Lemma re_split_text_from (hs : list slice) (a : Z) :
  ahead v a hs ->
  re_split_go before after 0 [] (text_from (Some a) hs) = pieces_from (Some a) hs.
Proof.
  destruct markers_nonempty as (b0 & b' & a0 & a' & Hb & Ha).
  revert a. induction hs as [|h hs IH]; intros a H.
  - simpl. rewrite slice_of_tail by apply H.
    rewrite <- (app_nil_r (skipn _ v)) at 1.
    rewrite re_split_plain by apply plain_skipn.
    simpl. now rewrite app_nil_r, rev_involutive.
  - pose proof H as (Hpos & _).
    apply ahead_cons in H. destruct H as (b & c & -> & Hbc & H).
    pose proof H as (Hc & _).
    cbn [text_from pieces_from start stop slice2]. unfold getitem; simpl.
    rewrite !slice_of_span by lia.
    rewrite re_split_plain by apply plain_span.
    rewrite re_split_marker by (congruence || apply marker_at_before).
    rewrite app_nil_r, rev_involutive.
    rewrite re_split_plain by apply plain_span.
    rewrite re_split_marker by (congruence || apply marker_at_after).
    rewrite app_nil_r, rev_involutive.
    now rewrite IH.
Qed.

Lemma extract_loop_pieces (hs : list slice) (a : Z) (parts : list str)
      (slices : list slice) :
  ahead v a hs ->
  extract_loop before after (pieces_from (Some a) hs) parts slices a None =
  Ok (parts ++ split_from v (Some a) hs, slices ++ hs).
Proof.
  revert a parts slices. induction hs as [|h hs IH]; intros a parts slices H.
  - simpl. rewrite slice_of_tail by apply H.
    destruct (plain_neq_marker (plain_skipn (Z.to_nat a))) as [-> ->].
    now rewrite app_nil_r.
  - pose proof H as (Hpos & _).
    apply ahead_cons in H. destruct H as (b & c & -> & Hbc & H).
    pose proof H as (Hc & _).
    cbn [pieces_from split_from start stop slice2]. unfold getitem; simpl start; simpl stop.
    rewrite !slice_of_span by lia.
    cbn [extract_loop].
    destruct (plain_neq_marker (plain_span (Z.to_nat a) (Z.to_nat b))) as [-> ->].
    rewrite str_eqb_refl.
    destruct (plain_neq_marker (plain_span (Z.to_nat b) (Z.to_nat c))) as [-> ->].
    rewrite (str_eqb_neq markers_distinct), str_eqb_refl.
    rewrite !span_length by lia.
    replace (a + Z.of_nat (Z.to_nat b - Z.to_nat a))%Z with b by lia.
    replace (b + Z.of_nat (Z.to_nat c - Z.to_nat b))%Z with c by lia.
    rewrite IH by assumption.
    now rewrite <- !app_assoc.
Qed.
End RoundTrip.

(** [w] and [m] agree as far as both go: one is a prefix of the other. *)
Definition compatible (w m : str) : bool := starts_with w m || starts_with m w.

(** No match of the marker [m] can begin inside a piece of [v] and end
    inside a marker: whenever a non-empty proper prefix of [m] occurs in
    [v], what is left of [m] agrees with neither marker. *)
Definition no_straddle (v before after m : str) : bool :=
  forallb (fun k => negb (occurs (firstn k m) v)
                    || (negb (compatible (skipn k m) before)
                        && negb (compatible (skipn k m) after)))
          (seq 1 (length m - 1)).

(** The markers that [apply] leaves recognisable in [v]: both are
    non-empty, neither is a prefix of the other, neither occurs in [v],
    and no match of one can run from a piece of [v] into a marker. *)
Definition markers_fit (v before after : str) : bool :=
  match before, after with
  | _ :: _, _ :: _ =>
      negb (starts_with before after) && negb (starts_with after before)
      && negb (occurs before v) && negb (occurs after v)
      && no_straddle v before after before && no_straddle v before after after
  | _, _ => false
  end.

(** [p] is a substring of [v]. *)
Definition inside (v p : str) : Prop := exists pre post, v = pre ++ p ++ post.

Lemma occurs_inside (v m : str) : inside v m -> occurs m v = true.
Proof.
  intros (pre & post & ->). induction pre as [|c pre IH].
  - simpl. destruct (m ++ post) eqn:E; simpl; rewrite <- E, starts_with_app; reflexivity.
  - simpl. rewrite IH. apply orb_true_r.
Qed.

Lemma starts_with_prefix (m text : str) :
  starts_with m text = true -> exists rest, text = m ++ rest.
Proof.
  revert text. induction m as [|c m IH]; intros text H.
  - now exists text.
  - destruct text as [|d text]; [discriminate|]. simpl in H.
    apply andb_prop in H. destruct H as [H1 H2].
    apply Ascii.eqb_eq in H1. subst d.
    destruct (IH _ H2) as [rest ->]. now exists rest.
Qed.

Lemma starts_with_app_cases (m p rest : str) :
  starts_with m (p ++ rest) = true ->
  starts_with m p = true \/
  exists w, w <> [] /\ m = p ++ w /\ starts_with w rest = true.
Proof.
  revert m. induction p as [|c p IH]; intros m H.
  - destruct m as [|d m]; [now left|]. right. exists (d :: m).
    split; [discriminate|]. now split.
  - destruct m as [|d m]; [now left|]. simpl in H.
    apply andb_prop in H. destruct H as [H1 H2].
    destruct (IH _ H2) as [H|(w & Hw & -> & Hr)].
    + left. simpl. now rewrite H1, H.
    + right. exists w. apply Ascii.eqb_eq in H1. subst d. now repeat split.
Qed.

Lemma inside_prefix (v p m : str) :
  inside v p -> starts_with m p = true -> inside v m.
Proof.
  intros (pre & post & ->) H. apply starts_with_prefix in H.
  destruct H as [rest ->]. exists pre, (rest ++ post). now rewrite <- app_assoc.
Qed.

Lemma inside_tail (v : str) (c : ascii) (p : str) : inside v (c :: p) -> inside v p.
Proof.
  intros (pre & post & ->). exists (pre ++ [c]), post.
  now rewrite <- app_assoc.
Qed.

Lemma inside_span (v : str) (a b : nat) : inside v (span v a b).
Proof.
  exists (firstn a v), (skipn (b - a) (skipn a v)). unfold span.
  now rewrite !firstn_skipn.
Qed.

Lemma inside_skipn (v : str) (a : nat) : inside v (skipn a v).
Proof. exists (firstn a v), []. now rewrite app_nil_r, firstn_skipn. Qed.

Lemma marker_at_cases (before after text m : str) :
  marker_at before after text = Some m ->
  (m = before \/ m = after) /\ m <> [] /\ starts_with m text = true.
Proof.
  unfold marker_at. destruct before as [|b0 b'], after as [|a0 a'];
    try discriminate.
  - destruct (starts_with (a0 :: a') text) eqn:E; [|discriminate].
    intros [= <-]. split; [now right|]. split; [discriminate|exact E].
  - destruct (starts_with (b0 :: b') text) eqn:E; [|discriminate].
    intros [= <-]. split; [now left|]. split; [discriminate|exact E].
  - destruct (starts_with (b0 :: b') text) eqn:E.
    + intros [= <-]. split; [now left|]. split; [discriminate|exact E].
    + destruct (starts_with (a0 :: a') text) eqn:E'; [|discriminate].
      intros [= <-]. split; [now right|]. split; [discriminate|exact E'].
Qed.

Lemma no_straddle_split (v before after u w : str) :
  no_straddle v before after (u ++ w) = true ->
  u <> [] -> w <> [] -> occurs u v = true ->
  compatible w before = false /\ compatible w after = false.
Proof.
  unfold no_straddle. intros H Hu Hw Ho. rewrite forallb_forall in H.
  specialize (H (length u)).
  assert (E1 : firstn (length u) (u ++ w) = u).
  { rewrite firstn_app, Nat.sub_diag, firstn_all. apply app_nil_r. }
  assert (E2 : skipn (length u) (u ++ w) = w).
  { rewrite skipn_app, Nat.sub_diag, skipn_all. reflexivity. }
  rewrite E1, E2, Ho in H. cbn [negb orb] in H.
  assert (Hin : In (length u) (seq 1 (length (u ++ w) - 1))).
  { apply in_seq. rewrite length_app.
    destruct u; [congruence|]. destruct w; [congruence|]. simpl. lia. }
  specialize (H Hin). apply andb_prop in H.
  now rewrite !negb_true_iff in H.
Qed.

Section RoundTripFit.
Variables (v before after : str).
Hypothesis Hfit : markers_fit v before after = true.

Lemma fit_facts :
  before <> [] /\ after <> [] /\
  starts_with before after = false /\ starts_with after before = false /\
  occurs before v = false /\ occurs after v = false /\
  no_straddle v before after before = true /\
  no_straddle v before after after = true.
Proof.
  unfold markers_fit in Hfit.
  destruct before as [|b0 b']; [discriminate|].
  destruct after as [|a0 a']; [discriminate|].
  repeat (apply andb_prop in Hfit; destruct Hfit as [Hfit ?]).
  rewrite !negb_true_iff in *. repeat split; (discriminate || assumption).
Qed.

(** What follows a piece of the value in the text of [apply]: nothing, or
    a marker. *)
Definition follows (rest : str) : Prop :=
  rest = [] \/ (exists r, rest = before ++ r) \/ (exists r, rest = after ++ r).

(** No marker matches at a position inside a piece of the value. *)
Lemma piece_quiet (p rest : str) :
  inside v p -> p <> [] -> follows rest ->
  marker_at before after (p ++ rest) = None.
Proof.
  intros Hp Hne Hf.
  destruct fit_facts as (_ & _ & _ & _ & Hb & Ha & Sb & Sa).
  destruct (marker_at before after (p ++ rest)) as [m|] eqn:E; [|reflexivity].
  exfalso. apply marker_at_cases in E. destruct E as (Hm & Hmne & Hs).
  apply starts_with_app_cases in Hs. destruct Hs as [Hs|(w & Hw & Hmw & Hr)].
  - pose proof (@occurs_inside v m (@inside_prefix v p m Hp Hs)) as Ho.
    destruct Hm; subst m; congruence.
  - assert (Hc : compatible w before = false /\ compatible w after = false).
    { apply no_straddle_split with (v := v) (u := p); try assumption.
      - rewrite <- Hmw. destruct Hm; now subst m.
      - now apply occurs_inside. }
    destruct Hc as [Hcb Hca]. unfold compatible in Hcb, Hca.
    apply orb_false_elim in Hcb, Hca.
    destruct Hf as [->|[[r ->]|[r ->]]].
    + destruct w; [congruence|discriminate].
    + apply starts_with_app_inv in Hr. destruct Hr; intuition congruence.
    + apply starts_with_app_inv in Hr. destruct Hr; intuition congruence.
Qed.

(** [re.split] passes over a piece of the value ... *)
Lemma re_split_piece (p acc rest : str) :
  inside v p -> follows rest ->
  re_split_go before after 0 acc (p ++ rest) =
  re_split_go before after 0 (rev p ++ acc) rest.
Proof.
  revert acc. induction p as [|c p IH]; intros acc Hp Hf; [reflexivity|].
  assert (Hq : marker_at before after ((c :: p) ++ rest) = None)
    by (apply piece_quiet; (assumption || discriminate)).
  cbn [app] in Hq |- *. cbn [re_split_go]. rewrite Hq.
  rewrite IH by (try assumption; eapply inside_tail; eassumption).
  cbn [rev]. now rewrite <- app_assoc.
Qed.

(** ... and finds each marker where [apply] wrote it. *)
Lemma marker_at_before_fit (rest : str) :
  marker_at before after (before ++ rest) = Some before.
Proof.
  destruct fit_facts as (Hb & _).
  unfold marker_at. rewrite starts_with_app. now destruct before.
Qed.

Lemma marker_at_after_fit (rest : str) :
  marker_at before after (after ++ rest) = Some after.
Proof.
  destruct fit_facts as (Hb & Ha & H1 & H2 & _).
  unfold marker_at. rewrite starts_with_app.
  destruct (starts_with before (after ++ rest)) eqn:E.
  - apply starts_with_app_inv in E. destruct E; congruence.
  - destruct before; [congruence|]. now destruct after.
Qed.

Lemma piece_neq_marker (p : str) :
  inside v p -> str_eqb p before = false /\ str_eqb p after = false.
Proof.
  intros Hp. destruct fit_facts as (_ & _ & _ & _ & Hb & Ha & _).
  split; apply str_eqb_neq; intros ->; apply occurs_inside in Hp; congruence.
Qed.

Lemma fit_distinct : after <> before.
Proof.
  intros E. destruct fit_facts as (_ & _ & H & _).
  rewrite E in H. rewrite <- (app_nil_r before) in H at 2.
  now rewrite starts_with_app in H.
Qed.

Lemma re_split_text_from_fit (hs : list slice) (a : Z) :
  ahead v a hs ->
  re_split_go before after 0 [] (text_from v before after (Some a) hs) =
  pieces_from v before after (Some a) hs.
Proof.
  destruct fit_facts as (Hb & Ha & _).
  revert a. induction hs as [|h hs IH]; intros a H.
  - simpl. rewrite slice_of_tail by apply H.
    rewrite <- (app_nil_r (skipn _ v)) at 1.
    rewrite re_split_piece by (apply inside_skipn || now left).
    simpl. now rewrite app_nil_r, rev_involutive.
  - pose proof H as (Hpos & _).
    apply ahead_cons in H. destruct H as (b & c & -> & Hbc & H).
    pose proof H as (Hc & _).
    cbn [text_from pieces_from start stop slice2]. unfold getitem; simpl.
    rewrite !slice_of_span by lia.
    rewrite re_split_piece by (apply inside_span || (right; left; eexists; reflexivity)).
    rewrite re_split_marker by (assumption || apply marker_at_before_fit).
    rewrite app_nil_r, rev_involutive.
    rewrite re_split_piece by (apply inside_span || (right; right; eexists; reflexivity)).
    rewrite re_split_marker by (assumption || apply marker_at_after_fit).
    rewrite app_nil_r, rev_involutive.
    now rewrite IH.
Qed.

Lemma extract_loop_pieces_fit (hs : list slice) (a : Z) (parts : list str)
      (slices : list slice) :
  ahead v a hs ->
  extract_loop before after (pieces_from v before after (Some a) hs) parts slices a None =
  Ok (parts ++ split_from v (Some a) hs, slices ++ hs).
Proof.
  revert a parts slices. induction hs as [|h hs IH]; intros a parts slices H.
  - simpl. rewrite slice_of_tail by apply H.
    destruct (@piece_neq_marker _ (inside_skipn v (Z.to_nat a))) as [-> ->].
    now rewrite app_nil_r.
  - pose proof H as (Hpos & _).
    apply ahead_cons in H. destruct H as (b & c & -> & Hbc & H).
    pose proof H as (Hc & _).
    cbn [pieces_from split_from start stop slice2]. unfold getitem; simpl start; simpl stop.
    rewrite !slice_of_span by lia.
    cbn [extract_loop].
    destruct (@piece_neq_marker _ (inside_span v (Z.to_nat a) (Z.to_nat b))) as [-> ->].
    rewrite str_eqb_refl.
    destruct (@piece_neq_marker _ (inside_span v (Z.to_nat b) (Z.to_nat c))) as [-> ->].
    rewrite (str_eqb_neq fit_distinct), str_eqb_refl.
    rewrite !span_length by lia.
    replace (a + Z.of_nat (Z.to_nat b - Z.to_nat a))%Z with b by lia.
    replace (b + Z.of_nat (Z.to_nat c - Z.to_nat b))%Z with c by lia.
    rewrite IH by assumption.
    now rewrite <- !app_assoc.
Qed.
End RoundTripFit.

(** C2, as the code has it: for a constructed string whose spans do not
    overlap, and markers that are non-empty, do not occur in the value,
    of which neither is a prefix of the other and of which no match can
    run from a piece of the value into a marker, [extract] gives back the
    string that [apply] was called on. *)
Theorem extract_apply_roundtrip (v : str) (hs : list slice)
        (x : HighlightedString) (before after : str) :
  new v hs = Ok x ->
  non_overlapping (highlights x) ->
  markers_fit (value x) before after = true ->
  extract before after (apply before after None x) = Ok x.
Proof.
  intros Hnew Hn Hm. apply new_Ok_inv in Hnew. destruct Hnew as (Hval & Hv & _).
  destruct x as [xv xhs]; cbn [value highlights] in *. subst xv.
  assert (Ha : ahead v 0 xhs).
  { split; [lia|]. split; [assumption|]. split; [|assumption].
    eapply Forall_impl; [|exact Hv]. intros h Hh. apply valid_inv in Hh.
    destruct Hh as (a & b & -> & ? & ?). unfold istart; simpl. lia. }
  unfold extract, apply, split, re_split; cbn [value highlights].
  rewrite (inner_text_from v before after) by reflexivity.
  rewrite re_split_text_from_fit by assumption.
  rewrite extract_loop_pieces_fit by assumption.
  cbn [app]. rewrite split_from_concat by assumption.
  now apply new_sorted.
Qed.

Lemma extract_apply_roundtrip_witness :
  extract (s "<b>") (s "</b>")
          (apply (s "<b>") (s "</b>") None
                 (HS (s "a < b") [slice2 0 3; slice2 4 5])) =
  Ok (HS (s "a < b") [slice2 0 3; slice2 4 5]).
Proof.
  apply (@extract_apply_roundtrip (s "a < b") [slice2 4 5; slice2 0 3]).
  - reflexivity.
  - repeat constructor.
  - reflexivity.
Defined.

(** C2 as stated fails: the markers ["<"] and ["<<"] are non-empty, distinct
    and absent from the value, yet [extract] raises on what [apply]
    returns, because the pattern matches ["<"] where ["<<"] was written.
    With the markers the other way round the pattern matches ["<<"] across
    two markers ["<"]; and the markers ["ab"] and ["aab"], of which neither
    is a prefix of the other, fail on the value ["a"], whose last character
    and the ["ab"] written after it read as ["aab"].  Each of the three
    breaks one condition of [markers_fit] and meets the others. *)
Lemma roundtrip_counterexample :
  (let x := HS (s "abcd") [slice2 1 3] in
   new (s "abcd") [slice2 1 3] = Ok x /\
   s "<" <> [] /\ s "<<" <> [] /\ s "<" <> s "<<" /\
   occurs (s "<") (value x) = false /\ occurs (s "<<") (value x) = false /\
   apply (s "<") (s "<<") None x = s "a<bc<<d" /\
   extract (s "<") (s "<<") (apply (s "<") (s "<<") None x) =
   Raise (MarkerError "highlight start marker in highlight") /\
   starts_with (s "<") (s "<<") = true /\
   no_straddle (value x) (s "<") (s "<<") (s "<") = true /\
   no_straddle (value x) (s "<") (s "<<") (s "<<") = true) /\
  (let x := HS (s "ab") [slice2 0 1; slice2 1 2] in
   new (s "ab") [slice2 0 1; slice2 1 2] = Ok x /\
   occurs (s "<<") (value x) = false /\ occurs (s "<") (value x) = false /\
   apply (s "<<") (s "<") None x = s "<<a<<<b<" /\
   extract (s "<<") (s "<") (apply (s "<<") (s "<") None x) =
   Raise (MarkerError "highlight start marker in highlight") /\
   starts_with (s "<") (s "<<") = true /\
   no_straddle (value x) (s "<<") (s "<") (s "<<") = true /\
   no_straddle (value x) (s "<<") (s "<") (s "<") = true) /\
  (let x := HS (s "a") [slice2 1 1] in
   new (s "a") [slice2 1 1] = Ok x /\
   starts_with (s "ab") (s "aab") = false /\
   starts_with (s "aab") (s "ab") = false /\
   occurs (s "ab") (value x) = false /\ occurs (s "aab") (value x) = false /\
   apply (s "ab") (s "aab") None x = s "aabaab" /\
   extract (s "ab") (s "aab") (apply (s "ab") (s "aab") None x) =
   Raise (MarkerError "unmatched highlight end marker") /\
   no_straddle (value x) (s "ab") (s "aab") (s "aab") = false).
Proof. repeat split; try reflexivity; discriminate. Qed.

(** C1 fails on the code: the second loop of [__post_init__] never moves
    [prev_highlight] past the first span, so two later spans that overlap
    are accepted. *)
Theorem new_accepts_overlap :
  new (s "abcdef") [slice2 0 1; slice2 2 5; slice2 3 6] =
  Ok (HS (s "abcdef") [slice2 0 1; slice2 2 5; slice2 3 6]) /\
  overlaps (slice2 2 5) (slice2 3 6) = true.
Proof. split; reflexivity. Qed.

(** *** More on the constructor *)

(** X1: what a constructed string holds: the value it was given and the
    given spans, each with bounds in order and within the value, sorted by
    start and stop. *)
Theorem new_stores_sorted_spans (v : str) (hs : list slice)
        (x : HighlightedString) :
  new v hs = Ok x ->
  value x = v /\
  Permutation (highlights x) hs /\
  StronglySorted (Py.key_le slice_key pair_ltb) (highlights x) /\
  Forall (fun h => exists a b, h = slice2 a b /\ (0 <= a <= b)%Z /\
                               (b <= Z.of_nat (length v))%Z) (highlights x).
Proof.
  intros H. pose proof (new_Ok_inv _ _ H) as (Hv & Hval & Hs).
  apply new_Ok_iff in H. destruct H as (_ & _ & ->). simpl in *.
  split; [reflexivity|]. split; [apply Py.sorted_perm|]. split; [exact Hs|].
  eapply Forall_impl; [|exact Hval]. intros h Hh. now apply valid_inv.
Qed.

Lemma new_stores_sorted_spans_witness :
  Permutation [slice2 1 2; slice2 4 6] [slice2 4 6; slice2 1 2] /\
  StronglySorted (Py.key_le slice_key pair_ltb) [slice2 1 2; slice2 4 6].
Proof.
  destruct (@new_stores_sorted_spans (s "abcdef") [slice2 4 6; slice2 1 2]
              (HS (s "abcdef") [slice2 1 2; slice2 4 6]) eq_refl)
    as (_ & H1 & H2 & _).
  split; [exact H1|exact H2].
Defined.

(** X2: the spans are validated in the order given and before any
    comparison between spans: the error is the one of the first span that
    is not valid, whatever follows it. *)
Theorem new_reports_first_invalid (v : str) (pre post : list slice)
        (h : slice) (reason : string) :
  Forall (valid v) pre ->
  check_highlight v h = Some reason ->
  new v (pre ++ h :: post) = Raise (InvalidHighlight reason h).
Proof.
  intros Hpre Hh. unfold new, __post_init__; cbn [value highlights].
  assert (E : check_highlights v (pre ++ h :: post) =
              Some (InvalidHighlight reason h)).
  { induction Hpre as [|p pre Hp _ IH]; simpl; [now rewrite Hh|].
    unfold valid in Hp. now rewrite Hp. }
  now rewrite E.
Qed.

Lemma new_reports_first_invalid_witness :
  new (s "abc") [slice2 0 1; slice2 2 9; slice2 0 3; Slice None None None] =
  Raise (InvalidHighlight
           "start and stop must be less than or equal to the string length"
           (slice2 2 9)).
Proof.
  apply (@new_reports_first_invalid (s "abc") [slice2 0 1]
           [slice2 0 3; Slice None None None]).
  - repeat constructor.
  - reflexivity.
Defined.

Lemma valid_same_key (v : str) (a b : slice) :
  valid v a -> valid v b ->
  Py.same_key slice_key pair_ltb a b = true -> a = b.
Proof.
  intros Ha Hb. apply valid_inv in Ha, Hb.
  destruct Ha as (a1 & a2 & -> & _), Hb as (b1 & b2 & -> & _).
  unfold Py.same_key, pair_ltb, slice_key, istart, istop, slice2; simpl.
  intros H. apply andb_prop in H. destruct H as [H1 H2].
  rewrite negb_true_iff in H1, H2.
  assert (a1 = b1 /\ a2 = b2) as [-> ->] by lia. reflexivity.
Qed.

(** X3: the order in which the spans are given does not matter: when the
    constructor accepts them it accepts any rearrangement, and builds the
    same string. *)
Theorem new_order_insensitive (v : str) (hs hs' : list slice)
        (x : HighlightedString) :
  Permutation hs hs' -> new v hs = Ok x -> new v hs' = Ok x.
Proof.
  intros Hp H. apply new_Ok_iff in H. destruct H as (Hv & Ho & ->).
  assert (Hs : Py.sorted slice_key pair_ltb hs = Py.sorted slice_key pair_ltb hs').
  { apply Py.sorted_permutation; [apply pair_ltb_asym|apply pair_le_trans| |exact Hp].
    rewrite Forall_forall in Hv. intros a b Ha Hb.
    apply (valid_same_key (Hv a Ha) (Hv b Hb)). }
  apply new_Ok_iff. rewrite <- Hs. split; [|auto].
  rewrite Forall_forall in *. intros h Hh. apply Hv.
  eapply Permutation_in; [apply Permutation_sym, Hp|exact Hh].
Qed.

Lemma new_order_insensitive_witness :
  new (s "abcdef") [slice2 4 6; slice2 0 1; slice2 2 2] =
  Ok (HS (s "abcdef") [slice2 0 1; slice2 2 2; slice2 4 6]).
Proof.
  apply (@new_order_insensitive (s "abcdef") [slice2 2 2; slice2 4 6; slice2 0 1]).
  - apply (Permutation_cons_append [slice2 4 6; slice2 0 1]).
  - reflexivity.
Defined.

(** *** More on [extract] *)

Lemma ForallOrdPairs_snoc (A : Type) (R : A -> A -> Prop) (l : list A) (x : A) :
  ForallOrdPairs R l -> Forall (fun p => R p x) l -> ForallOrdPairs R (l ++ [x]).
Proof.
  induction 1 as [|y l Hy Hl IH]; intros Hx; simpl.
  - repeat constructor.
  - inversion Hx as [|? ? Hyx Hlx]; subst. constructor; [|now apply IH].
    apply Forall_app. split; [exact Hy|]. now constructor.
Qed.

(** The spans collected so far: in order, without overlap, and none
    reaching beyond [bound]. *)
Definition spans_upto (bound : Z) (slices : list slice) : Prop :=
  non_overlapping slices /\
  Forall (fun h => exists a b, h = slice2 a b /\ (0 <= a <= b)%Z /\ (b <= bound)%Z)
         slices.

Lemma spans_upto_mono (bound bound' : Z) (slices : list slice) :
  (bound <= bound')%Z -> spans_upto bound slices -> spans_upto bound' slices.
Proof.
  intros Hb [H1 H2]. split; [exact H1|].
  eapply Forall_impl; [|exact H2].
  intros h (a & b & -> & ? & ?). exists a, b. split; [reflexivity|]. lia.
Qed.

Lemma spans_upto_snoc (st index : Z) (slices : list slice) :
  (0 <= st <= index)%Z -> spans_upto st slices ->
  spans_upto index (slices ++ [slice2 st index]).
Proof.
  intros Hst [H1 H2]. split.
  - apply ForallOrdPairs_snoc; [exact H1|].
    eapply Forall_impl; [|exact H2].
    intros h (a & b & -> & ? & ?). unfold overlaps, istop, istart; simpl. lia.
  - apply Forall_app. split.
    + eapply Forall_impl; [|exact H2].
      intros h (a & b & -> & ? & ?). exists a, b. split; [reflexivity|]. lia.
    + constructor; [|constructor]. exists st, index. split; [reflexivity|]. lia.
Qed.

Section ExtractInvariant.
Variables before after : str.

Lemma extract_loop_spans (pieces parts : list str) (slices : list slice)
      (index : Z) (start_ : option Z) (res : list str * list slice) :
  index = Z.of_nat (length (concat parts)) ->
  spans_upto (match start_ with Some st => st | None => index end) slices ->
  match start_ with Some st => (0 <= st <= index)%Z | None => True end ->
  extract_loop before after pieces parts slices index start_ = Ok res ->
  spans_upto (Z.of_nat (length (concat (fst res)))) (snd res).
Proof.
  revert parts slices index start_.
  induction pieces as [|part rest IH]; intros parts slices index start_ Hi Hs Hst H.
  - simpl in H. destruct start_; [discriminate|]. injection H as <-. simpl.
    now rewrite <- Hi.
  - cbn [extract_loop] in H. destruct (str_eqb part before).
    + destruct start_; [discriminate|].
      apply IH in H; [exact H|exact Hi|exact Hs|lia].
    + destruct (str_eqb part after).
      * destruct start_ as [st|]; [|discriminate].
        apply IH in H; [exact H|exact Hi| |exact I].
        now apply spans_upto_snoc.
      * assert (Hi' : (index + Z.of_nat (length part))%Z =
                      Z.of_nat (length (concat (parts ++ [part])))).
        { rewrite concat_app, length_app. simpl. rewrite app_nil_r. lia. }
        apply IH in H; [exact H|exact Hi'| |].
        -- destruct start_; [exact Hs|].
           eapply spans_upto_mono; [|exact Hs]. lia.
        -- destruct start_; [lia|exact I].
Qed.

Lemma extract_loop_raises (pieces parts : list str) (slices : list slice)
      (index : Z) (start_ : option Z) (e : error) :
  extract_loop before after pieces parts slices index start_ = Raise e ->
  exists msg, e = MarkerError msg.
Proof.
  revert parts slices index start_.
  induction pieces as [|part rest IH]; intros parts slices index start_ H.
  - simpl in H. destruct start_; [|discriminate]. injection H as <-. eauto.
  - cbn [extract_loop] in H. destruct (str_eqb part before).
    + destruct start_; [injection H as <-; eauto|]. now apply IH in H.
    + destruct (str_eqb part after).
      * destruct start_; [|injection H as <-; eauto]. now apply IH in H.
      * now apply IH in H.
Qed.

Lemma spans_upto_new (v : str) (slices : list slice) :
  spans_upto (Z.of_nat (length v)) slices ->
  new v slices = Ok (HS v slices) /\ Forall (valid v) slices.
Proof.
  intros [H1 H2].
  assert (Hv : Forall (valid v) slices).
  { eapply Forall_impl; [|exact H2].
    intros h (a & b & -> & ? & ?). now apply valid_slice2. }
  split; [now apply new_sorted|exact Hv].
Qed.

(** X4: whatever the text and the non-empty markers, a string that
    [extract] returns has spans that are valid for its value and do not
    overlap, in the order they were met; and when [extract] raises, it is
    for the markers, never for the spans it collected. *)
Theorem extract_spans_disjoint (text : str) :
  before <> [] -> after <> [] ->
  (forall x, extract before after text = Ok x ->
     non_overlapping (highlights x) /\ Forall (valid (value x)) (highlights x)) /\
  (forall e, extract before after text = Raise e -> exists msg, e = MarkerError msg).
Proof.
  intros _ _. unfold extract.
  destruct (extract_loop before after (re_split before after text) [] [] 0 None)
    as [[parts slices]|e'] eqn:E.
  - apply extract_loop_spans in E;
      [|reflexivity|split; constructor|exact I].
    simpl in E. destruct (@spans_upto_new _ _ E) as [Hnew Hv].
    rewrite Hnew. split.
    + intros x [= <-]. simpl. split; [apply E|exact Hv].
    + intros e H. discriminate.
  - apply extract_loop_raises in E. split.
    + intros x H. discriminate.
    + intros e [= <-]. exact E.
Qed.
End ExtractInvariant.

Lemma marker_at_first (before after rest : str) :
  before <> [] -> marker_at before after (before ++ rest) = Some before.
Proof.
  intros H. unfold marker_at. destruct before as [|c m]; [congruence|].
  now rewrite starts_with_app.
Qed.

Lemma marker_at_second (before after rest : str) :
  after <> [] -> exists m, marker_at before after (after ++ rest) = Some m.
Proof.
  intros H. unfold marker_at. destruct after as [|c m]; [congruence|].
  rewrite starts_with_app.
  destruct before as [|c' m']; [eauto|].
  destruct (starts_with (c' :: m') ((c :: m) ++ rest)); eauto.
Qed.

Section MarkerFree.
Variables before after : str.

(** No marker matches anywhere in the text. *)
Fixpoint marker_free (text : str) : bool :=
  match text with
  | [] => true
  | _ :: rest =>
      match marker_at before after text with
      | Some _ => false
      | None => marker_free rest
      end
  end.

Lemma re_split_free (acc text : str) :
  marker_free text = true ->
  re_split_go before after 0 acc text = [rev acc ++ text].
Proof.
  revert acc. induction text as [|c text IH]; intros acc H.
  - simpl. now rewrite app_nil_r.
  - cbn [marker_free] in H. cbn [re_split_go].
    destruct (marker_at before after (c :: text)); [discriminate|].
    rewrite IH by assumption. simpl. now rewrite <- app_assoc.
Qed.

Lemma marker_free_head (text : str) :
  marker_free text = true -> text = [] \/ marker_at before after text = None.
Proof.
  destruct text as [|c text]; [now left|]. cbn [marker_free].
  destruct (marker_at before after (c :: text)); [discriminate|now right].
Qed.

Lemma marker_free_neq (text : str) :
  before <> [] -> after <> [] -> marker_free text = true ->
  str_eqb text before = false /\ str_eqb text after = false.
Proof.
  intros Hb Ha H. apply marker_free_head in H.
  split; apply str_eqb_neq; intros E; destruct H as [H|H]; try congruence.
  - pose proof (marker_at_first after [] Hb) as H1.
    rewrite app_nil_r in H1. congruence.
  - destruct (marker_at_second before [] Ha) as [m H1].
    rewrite app_nil_r in H1. congruence.
Qed.

(** X5: a text in which no marker occurs is returned as it is, with no
    span. *)
Theorem extract_without_markers (text : str) :
  before <> [] -> after <> [] -> marker_free text = true ->
  extract before after text = Ok (HS text []).
Proof.
  intros Hb Ha H. unfold extract, re_split. rewrite re_split_free by assumption.
  simpl rev. cbn [app extract_loop].
  destruct (@marker_free_neq text Hb Ha H) as [-> ->].
  cbn [app concat]. now rewrite app_nil_r.
Qed.
End MarkerFree.

Lemma extract_without_markers_witness :
  extract (s "<b>") (s "</b>") (s "a < b > c") = Ok (HS (s "a < b > c") []).
Proof.
  apply extract_without_markers; [discriminate|discriminate|reflexivity].
Defined.

Lemma extract_spans_disjoint_witness :
  non_overlapping [slice2 0 3; slice2 4 4] /\
  Forall (valid (s "one two")) [slice2 0 3; slice2 4 4].
Proof.
  refine (proj1 (@extract_spans_disjoint (s "<") (s ">") (s "<one> <>two") _ _)
                (HS (s "one two") [slice2 0 3; slice2 4 4]) eq_refl);
    discriminate.
Defined.

Section MarkerErrors.
Variables (v before after : str).
Hypothesis Hm : markers_ok v before after = true.

(** X8: the three errors of [extract], for pieces [p] and [q] of plain
    text: an end marker before any start marker, a start marker that is
    never closed, and a start marker inside a highlight. *)
Theorem extract_marker_errors (p q rest : str) :
  plain v p -> plain v q ->
  extract before after (p ++ after ++ rest) =
    Raise (MarkerError "unmatched highlight end marker") /\
  extract before after (p ++ before ++ q) =
    Raise (MarkerError "highlight is never closed") /\
  extract before after (p ++ before ++ q ++ before ++ rest) =
    Raise (MarkerError "highlight start marker in highlight").
Proof.
  intros Hp Hq.
  destruct (@markers_nonempty v before after Hm) as (b0 & b' & a0 & a' & Hb & Ha).
  assert (Hbn : before <> []) by (rewrite Hb; discriminate).
  assert (Han : after <> []) by (rewrite Ha; discriminate).
  destruct (@plain_neq_marker v before after Hm p Hp) as [Ep1 Ep2].
  destruct (@plain_neq_marker v before after Hm q Hq) as [Eq1 Eq2].
  unfold extract, re_split. split; [|split].
  - rewrite (@re_split_plain v before after Hm) by assumption.
    rewrite re_split_marker by (assumption || apply (@marker_at_after v before after Hm)).
    rewrite app_nil_r, rev_involutive. cbn [extract_loop app].
    rewrite Ep1, Ep2, (str_eqb_neq (@markers_distinct v before after Hm)), str_eqb_refl.
    reflexivity.
  - rewrite (@re_split_plain v before after Hm) by assumption.
    rewrite re_split_marker by (assumption || apply (@marker_at_before v before after Hm)).
    rewrite app_nil_r, rev_involutive.
    rewrite <- (app_nil_r q) at 1.
    rewrite (@re_split_plain v before after Hm) by assumption.
    rewrite app_nil_r. cbn [re_split_go]. rewrite rev_involutive.
    cbn [extract_loop app].
    rewrite Ep1, Ep2, str_eqb_refl, Eq1, Eq2. reflexivity.
  - rewrite (@re_split_plain v before after Hm) by assumption.
    rewrite re_split_marker by (assumption || apply (@marker_at_before v before after Hm)).
    rewrite app_nil_r, rev_involutive.
    rewrite (@re_split_plain v before after Hm) by assumption.
    rewrite re_split_marker by (assumption || apply (@marker_at_before v before after Hm)).
    rewrite app_nil_r, rev_involutive. cbn [extract_loop app].
    rewrite Ep1, Ep2, str_eqb_refl, Eq1, Eq2. reflexivity.
Qed.
End MarkerErrors.

Lemma extract_marker_errors_witness :
  extract (s "<") (s ">") (s "ab>cd<") =
    Raise (MarkerError "unmatched highlight end marker") /\
  extract (s "<") (s ">") (s "ab<cd") =
    Raise (MarkerError "highlight is never closed") /\
  extract (s "<") (s ">") (s "ab<cd<>") =
    Raise (MarkerError "highlight start marker in highlight").
Proof.
  assert (Hp : plain (s "abcd") (s "ab")).
  { intros c [<-|[<-|[]]]; simpl; auto. }
  assert (Hq : plain (s "abcd") (s "cd")).
  { intros c [<-|[<-|[]]]; simpl; auto. }
  destruct (@extract_marker_errors (s "abcd") (s "<") (s ">") eq_refl
              (s "ab") (s "cd") (s "cd<") Hp Hq) as (H1 & H2 & _).
  destruct (@extract_marker_errors (s "abcd") (s "<") (s ">") eq_refl
              (s "ab") (s "cd") (s ">") Hp Hq) as (_ & _ & H3).
  split; [exact H1|]. split; [exact H2|exact H3].
Defined.

(** *** More on [apply] *)

Section ApplyLength.
Variables (v before after : str).

Lemma text_from_length (hs : list slice) (a : Z) :
  ahead v a hs ->
  length (text_from v before after (Some a) hs) =
  (length v - Z.to_nat a) + length hs * (length before + length after).
Proof.
  revert a. induction hs as [|h hs IH]; intros a H.
  - simpl. rewrite slice_of_tail by apply H. rewrite length_skipn. lia.
  - pose proof H as (Hpos & _).
    apply ahead_cons in H. destruct H as (b & c & -> & Hbc & H).
    pose proof H as (Hc & _).
    cbn [text_from start stop slice2 length]. unfold getitem; simpl start; simpl stop.
    rewrite !slice_of_span by lia.
    rewrite !length_app, IH by assumption.
    rewrite !span_length by lia. lia.
Qed.

(** X6: [apply] adds the two markers once per span and nothing else: on a
    constructed string whose spans do not overlap, the result is as long as
    the value and one pair of markers per span. *)
Theorem apply_length (hs : list slice) (x : HighlightedString) :
  new v hs = Ok x ->
  non_overlapping (highlights x) ->
  length (apply before after None x) =
  length (value x) + length (highlights x) * (length before + length after).
Proof.
  intros Hnew Hn. apply new_Ok_inv in Hnew. destruct Hnew as (Hval & Hv & _).
  destruct x as [xv xhs]; cbn [value highlights] in *. subst xv.
  assert (Ha : ahead v 0 xhs).
  { split; [lia|]. split; [assumption|]. split; [|assumption].
    eapply Forall_impl; [|exact Hv]. intros h Hh. apply valid_inv in Hh.
    destruct Hh as (a & b & -> & ? & ?). unfold istart; simpl. lia. }
  unfold apply, split; cbn [value highlights].
  rewrite (inner_text_from v before after) by reflexivity.
  rewrite text_from_length by assumption. simpl. lia.
Qed.
End ApplyLength.

Lemma apply_length_witness :
  length (apply (s "<b>") (s "</b>") None
                (HS (s "one two") [slice2 0 3; slice2 4 7])) = 7 + 2 * (3 + 4).
Proof.
  apply (@apply_length (s "one two") (s "<b>") (s "</b>")
           [slice2 4 7; slice2 0 3]).
  - reflexivity.
  - repeat constructor.
Defined.

(** *** [apply] after [extract] *)

Lemma starts_with_split (m text : str) :
  starts_with m text = true -> text = m ++ skipn (length m) text.
Proof.
  revert text. induction m as [|c m IH]; intros [|d text]; simpl;
    try reflexivity; try discriminate.
  intros H. apply andb_prop in H. destruct H as [Hc H].
  apply Ascii.eqb_eq in Hc. subst d. f_equal. now apply IH.
Qed.

Lemma marker_at_Some (before after text m : str) :
  marker_at before after text = Some m -> m <> [] /\ starts_with m text = true.
Proof.
  unfold marker_at. destruct before as [|b0 b'], after as [|a0 a'];
    try discriminate.
  - destruct (starts_with (a0 :: a') text) eqn:E; [|discriminate].
    intros [= <-]. split; [discriminate|exact E].
  - destruct (starts_with (b0 :: b') text) eqn:E; [|discriminate].
    intros [= <-]. split; [discriminate|exact E].
  - destruct (starts_with (b0 :: b') text) eqn:E.
    + intros [= <-]. split; [discriminate|exact E].
    + destruct (starts_with (a0 :: a') text) eqn:E'; [|discriminate].
      intros [= <-]. split; [discriminate|exact E'].
Qed.

Section ApplyExtract.
Variables before after : str.

(** The pieces [re.split] returns make up the text. *)
Lemma re_split_go_concat (text : str) (skip : nat) (acc : str) :
  skip <= length text ->
  concat (re_split_go before after skip acc text) = rev acc ++ skipn skip text.
Proof.
  revert skip acc. induction text as [|c text IH]; intros skip acc Hs.
  - simpl in Hs. assert (skip = 0) as -> by lia. simpl. now rewrite app_nil_r.
  - cbn [re_split_go]. destruct skip as [|k].
    + destruct (marker_at before after (c :: text)) as [m|] eqn:Hm.
      * apply marker_at_Some in Hm. destruct Hm as [Hne Hsw].
        pose proof (starts_with_split _ _ Hsw) as Hsplit.
        destruct m as [|c' m]; [congruence|].
        simpl in Hsplit. injection Hsplit as -> Htext.
        cbn [concat]. rewrite IH.
        -- simpl. rewrite Nat.sub_0_r. now rewrite <- Htext.
        -- simpl. rewrite Nat.sub_0_r.
           apply (f_equal (@length ascii)) in Htext.
           rewrite length_app in Htext. lia.
      * rewrite IH by lia. simpl. now rewrite <- app_assoc.
    + rewrite IH by (simpl in Hs; lia). reflexivity.
Qed.

(** The text with the markers put back, for the part [suffix] of the value
    that starts at position [index] and the spans from there on. *)
Fixpoint render (index : Z) (suffix : str) (spans : list slice) : str :=
  match spans with
  | [] => suffix
  | h :: rest =>
      firstn (Z.to_nat (istart h - index)) suffix ++ before
      ++ firstn (Z.to_nat (istop h - istart h))
                (skipn (Z.to_nat (istart h - index)) suffix)
      ++ after
      ++ render (istop h) (skipn (Z.to_nat (istop h - index)) suffix) rest
  end.

(** The first span, if any, starts at or after [index]. *)
Definition head_from (index : Z) (spans : list slice) : Prop :=
  match spans with
  | [] => True
  | h :: _ => (index <= istart h <= istop h)%Z
  end.

Lemma render_shift (index : Z) (p suffix : str) (spans : list slice) :
  (0 <= index)%Z ->
  head_from (index + Z.of_nat (length p)) spans ->
  render index (p ++ suffix) spans =
  p ++ render (index + Z.of_nat (length p)) suffix spans.
Proof.
  intros Hi Hh. destruct spans as [|h rest]; [reflexivity|].
  simpl in Hh. cbn [render].
  replace (Z.to_nat (istart h - index))
    with (length p + Z.to_nat (istart h - (index + Z.of_nat (length p)))) by lia.
  replace (Z.to_nat (istop h - index))
    with (length p + Z.to_nat (istop h - (index + Z.of_nat (length p)))) by lia.
  rewrite firstn_app_2, !Py.skipn_app_2.
  now rewrite <- app_assoc.
Qed.

(** What the loop of [extract] has read, in terms of what it returns. *)
Lemma extract_loop_render (pieces parts : list str) (slices : list slice)
      (index : Z) (start_ : option Z) (parts' : list str)
      (slices' : list slice) :
  index = Z.of_nat (length (concat parts)) ->
  match start_ with Some st => (0 <= st <= index)%Z | None => True end ->
  extract_loop before after pieces parts slices index start_ =
    Ok (parts', slices') ->
  exists suffix new,
    concat parts' = concat parts ++ suffix /\
    match start_ with
    | None =>
        slices' = slices ++ new /\ head_from index new /\
        concat pieces = render index suffix new
    | Some st =>
        exists e, slices' = slices ++ slice2 st e :: new /\ (index <= e)%Z /\
          concat pieces =
          firstn (Z.to_nat (e - index)) suffix ++ after
          ++ render e (skipn (Z.to_nat (e - index)) suffix) new
    end.
Proof.
  revert parts slices index start_.
  induction pieces as [|part rest IH]; intros parts slices index start_ Hi Hst H.
  - simpl in H. destruct start_; [discriminate|]. injection H as <- <-.
    exists [], []. rewrite !app_nil_r. simpl. auto.
  - cbn [extract_loop] in H. destruct (str_eqb part before) eqn:Eb.
    + destruct start_; [discriminate|].
      unfold str_eqb in Eb. destruct (list_eq_dec ascii_dec part before);
        [subst part|discriminate].
      apply IH in H; [|exact Hi|lia].
      destruct H as (suffix & new & Hc & e & -> & He & Hr).
      exists suffix, (slice2 index e :: new). split; [exact Hc|].
      split; [reflexivity|]. split; [simpl; unfold istart, istop; simpl; lia|].
      cbn [concat render]. unfold istart, istop; simpl.
      rewrite Z.sub_diag. simpl. now rewrite Hr.
    + destruct (str_eqb part after) eqn:Ea.
      * destruct start_ as [st|]; [|discriminate].
        unfold str_eqb in Ea. destruct (list_eq_dec ascii_dec part after);
          [subst part|discriminate].
        apply IH in H; [|exact Hi|exact I].
        destruct H as (suffix & new & Hc & Hs & Hh & Hr).
        exists suffix, new. split; [exact Hc|]. exists index.
        split; [now rewrite Hs, <- app_assoc|]. split; [lia|].
        cbn [concat]. rewrite Z.sub_diag. simpl. now rewrite Hr.
      * assert (Hi' : (index + Z.of_nat (length part))%Z =
                      Z.of_nat (length (concat (parts ++ [part])))).
        { rewrite concat_app, length_app. simpl. rewrite app_nil_r. lia. }
        assert (Hc0 : concat (parts ++ [part]) = concat parts ++ part).
        { rewrite concat_app. simpl. now rewrite app_nil_r. }
        apply IH in H; [|exact Hi'|destruct start_; [lia|exact I]].
        destruct H as (suffix & new & Hc & H).
        exists (part ++ suffix), new.
        split; [now rewrite Hc, Hc0, <- app_assoc|].
        destruct start_ as [st|].
        -- destruct H as (e & Hs & He & Hr). exists e.
           split; [exact Hs|]. split; [lia|]. cbn [concat]. rewrite Hr.
           replace (Z.to_nat (e - index))
             with (length part + Z.to_nat (e - (index + Z.of_nat (length part))))
             by lia.
           rewrite firstn_app_2, Py.skipn_app_2.
           now rewrite <- app_assoc.
        -- destruct H as (Hs & Hh & Hr). split; [exact Hs|].
           split.
           ++ destruct new as [|h new]; [exact I|]. simpl in *. lia.
           ++ cbn [concat]. rewrite Hr. symmetry. apply render_shift; [lia|exact Hh].
Qed.

Lemma render_text_from (v : str) (spans : list slice) (index : Z) :
  ahead v index spans ->
  render index (skipn (Z.to_nat index) v) spans =
  text_from v before after (Some index) spans.
Proof.
  revert index. induction spans as [|h spans IH]; intros index H.
  - simpl. symmetry. apply slice_of_tail. apply H.
  - pose proof H as (Hpos & _).
    apply ahead_cons in H. destruct H as (b & c & -> & Hbc & H).
    pose proof H as (Hc & _).
    cbn [render text_from start stop slice2]. unfold getitem, istart, istop; simpl.
    rewrite !slice_of_span by lia. unfold span.
    rewrite !skipn_skipn.
    replace (Z.to_nat (b - index) + Z.to_nat index) with (Z.to_nat b) by lia.
    replace (Z.to_nat (c - index) + Z.to_nat index) with (Z.to_nat c) by lia.
    replace (Z.to_nat (b - index)) with (Z.to_nat b - Z.to_nat index) by lia.
    replace (Z.to_nat (c - b)) with (Z.to_nat c - Z.to_nat b) by lia.
    now rewrite IH.
Qed.

(** X7: [apply] undoes [extract]: with markers that are not empty, the
    string that [extract] returns for a text gives that text back when the
    same markers are applied to it. *)
Theorem apply_extract_roundtrip (text : str) (x : HighlightedString) :
  before <> [] -> after <> [] ->
  extract before after text = Ok x ->
  apply before after None x = text.
Proof.
  intros _ _. unfold extract.
  destruct (extract_loop before after (re_split before after text) [] [] 0 None)
    as [[parts slices]|e'] eqn:E; [|discriminate].
  pose proof (@extract_loop_spans before after (re_split before after text)
                [] [] 0%Z None (parts, slices) eq_refl
                (conj (FOP_nil _) (Forall_nil _)) I E) as Hsp.
  apply extract_loop_render in E; [|reflexivity|exact I].
  destruct E as (suffix & new & Hc & Hs & _ & Hr).
  simpl in Hc, Hs, Hsp. subst new.
  destruct (@spans_upto_new _ _ Hsp) as [Hnew Hv]. rewrite Hnew.
  intros [= <-].
  assert (Ha : ahead (concat parts) 0 slices).
  { split; [lia|]. split; [exact Hv|]. split; [|apply Hsp].
    eapply Forall_impl; [|exact Hv]. intros h Hh. apply valid_inv in Hh.
    destruct Hh as (a & b & -> & ? & ?). unfold istart; simpl. lia. }
  unfold apply, split; cbn [value highlights].
  rewrite (inner_text_from (concat parts) before after) by reflexivity.
  rewrite <- render_text_from by exact Ha. simpl skipn.
  rewrite Hc, <- Hr. unfold re_split.
  rewrite re_split_go_concat by lia. reflexivity.
Qed.
End ApplyExtract.

Lemma apply_extract_roundtrip_witness :
  apply (s "<b>") (s "</b>") None
        (HS (s "one two three") [slice2 0 3; slice2 4 4; slice2 8 13]) =
  s "<b>one</b> <b></b>two <b>three</b>".
Proof.
  apply apply_extract_roundtrip; [discriminate|discriminate|reflexivity].
Defined.

End Highlight.

(** ** [reader/types.py]: feed and entry arguments *)

Module FeedArgs.

Local Open Scope string_scope.

Local Set Warnings "-register-all".

(** The values the two functions tell apart: a string, a plain tuple, an
    object with attributes (a [Feed], an [Entry], anything feed- or
    entry-like), objects with none of the attributes looked for, such as
    [None] or a number, and a tuple that has attributes as well, as the
    instances of a named tuple have. *)
Inductive value : Type :=
| VStr (x : string)
| VTuple (xs : list value)
| VObject (attrs : list (string * value))
| VNone
| VInt (n : Z)
| VNamedTuple (xs : list value) (attrs : list (string * value)).

Inductive error : Type :=
| InvalidFeedArgument (feed : value)
| InvalidEntryArgument (entry : value).

(** [getattr(obj, name)], [None] when the object has no such attribute. *)
Fixpoint attr (attrs : list (string * value)) (name : string) : option value :=
  match attrs with
  | [] => None
  | (k, x) :: rest => if String.eqb k name then Some x else attr rest name
  end.

Definition getattr (obj : value) (name : string) : option value :=
  match obj with
  | VObject attrs => attr attrs name
  | VNamedTuple _ attrs => attr attrs name
  | _ => None
  end.

(** [isinstance(feed, FeedLike)] is the runtime check of the protocol: the
    object has a [url]; the string is looked at after that. *)
Definition _feed_argument (feed : value) : error + value :=
  match getattr feed "url" with
  | Some url => inr url
  | None =>
      match feed with
      | VStr _ => inr feed
      | _ => inl (InvalidFeedArgument feed)
      end
  end.

(** [isinstance(entry, EntryLike)]: the object has an [id] and a
    [feed_url], whether it is a tuple or not; [isinstance(entry, tuple)]
    is looked at when it has not both. *)
Definition _entry_argument (entry : value) : error + value :=
  match getattr entry "id", getattr entry "feed_url" with
  | Some id, Some feed_url =>
      match _feed_argument feed_url with
      | inl e => inl e
      | inr feed => inr (VTuple [feed; id])
      end
  | _, _ =>
      match entry with
      | VTuple [VStr _; VStr _] => inr entry
      | VNamedTuple [VStr _; VStr _] _ => inr entry
      | _ => inl (InvalidEntryArgument entry)
      end
  end.

(** The items of a tuple, plain or named. *)
Definition items (x : value) : option (list value) :=
  match x with
  | VTuple xs => Some xs
  | VNamedTuple xs _ => Some xs
  | _ => None
  end.

Definition is_str (x : value) : bool :=
  match x with VStr _ => true | _ => false end.

Example entry_argument_object :
  _entry_argument
    (VObject [("id", VStr "1"); ("feed_url", VStr "http://f"); ("title", VNone)]) =
  inr (VTuple [VStr "http://f"; VStr "1"]).
Proof. reflexivity. Qed.

(** X17: [_entry_argument] returns a tuple of two items; an entry-like
    object, a named tuple with an [id] and a [feed_url] among them, is
    answered from these two attributes, and the pair of strings returned
    for string attributes is accepted again and returned unchanged; a
    tuple, plain or named, that is not entry-like is accepted exactly when
    it is a pair of strings, and is returned as it is; what is neither
    entry-like nor a tuple is refused. *)
Theorem entry_argument_normal (entry : value) :
  (forall y, _entry_argument entry = inr y ->
     exists a b, items y = Some [a; b]) /\
  (forall f e, getattr entry "feed_url" = Some (VStr f) ->
     getattr entry "id" = Some (VStr e) ->
     _entry_argument entry = inr (VTuple [VStr f; VStr e]) /\
     _entry_argument (VTuple [VStr f; VStr e]) = inr (VTuple [VStr f; VStr e])) /\
  (getattr entry "id" = None \/ getattr entry "feed_url" = None ->
   (forall xs y, items entry = Some xs ->
      (_entry_argument entry = inr y <->
       y = entry /\ exists f e, xs = [VStr f; VStr e])) /\
   (items entry = None ->
    _entry_argument entry = inl (InvalidEntryArgument entry))).
Proof.
  split; [|split].
  - intros y. unfold _entry_argument.
    destruct (getattr entry "id") as [id|];
      [destruct (getattr entry "feed_url") as [feed_url|]|].
    + destruct (_feed_argument feed_url); [discriminate|].
      intros [= <-]. simpl. eauto.
    + destruct entry as [|[|[] [|[] [|]]]| | | |[|[] [|[] [|]]] attrs];
        try discriminate; intros [= <-]; simpl; eauto.
    + destruct entry as [|[|[] [|[] [|]]]| | | |[|[] [|[] [|]]] attrs];
        try discriminate; intros [= <-]; simpl; eauto.
  - intros f e Hf He. unfold _entry_argument. rewrite Hf, He. now split.
  - intros Hno.
    assert (E : _entry_argument entry =
                match entry with
                | VTuple [VStr _; VStr _] => inr entry
                | VNamedTuple [VStr _; VStr _] _ => inr entry
                | _ => inl (InvalidEntryArgument entry)
                end).
    { unfold _entry_argument. destruct Hno as [-> | Hno]; [reflexivity|].
      rewrite Hno. now destruct (getattr entry "id"). }
    rewrite E. clear E Hno. split.
    + intros xs y Hx. split.
      * destruct entry as [|[|[] [|[] [|]]]| | | |[|[] [|[] [|]]] attrs];
          try discriminate; injection Hx as <-; intros [= <-]; split; eauto.
      * intros (-> & f & e & ->).
        destruct entry as [|ys| | | |ys attrs]; try discriminate;
          injection Hx as ->; reflexivity.
    + intros Hi. destruct entry; try reflexivity; discriminate.
Qed.

Lemma entry_argument_normal_witness :
  _entry_argument
    (VNamedTuple [VStr "http://f"; VStr "1"; VStr "title"]
       [("feed_url", VStr "http://f"); ("id", VStr "1");
        ("title", VStr "title")]) =
  inr (VTuple [VStr "http://f"; VStr "1"]) /\
  (forall y,
     _entry_argument (VNamedTuple [VStr "http://f"; VStr "1"] [("x", VNone)]) =
     inr y <->
     y = VNamedTuple [VStr "http://f"; VStr "1"] [("x", VNone)] /\
     exists f e, [VStr "http://f"; VStr "1"] = [VStr f; VStr e]).
Proof.
  split.
  - apply (proj1 (proj2 (entry_argument_normal
      (VNamedTuple [VStr "http://f"; VStr "1"; VStr "title"]
         [("feed_url", VStr "http://f"); ("id", VStr "1");
          ("title", VStr "title")])))); reflexivity.
  - intros y.
    apply (proj1 (proj2 (proj2 (entry_argument_normal
      (VNamedTuple [VStr "http://f"; VStr "1"] [("x", VNone)])))
      (or_introl eq_refl))).
    reflexivity.
Defined.

(** X18: [_feed_argument] gives the [url] of whatever has one, without
    looking at it, so the feed of an entry-like object may itself be
    feed-like; it gives a string back as it is; and what has no [url] and is
    no string is refused, by [_entry_argument] too, with the error of the
    feed. *)
Theorem feed_argument_cases (feed : value) :
  (forall url, getattr feed "url" = Some url -> _feed_argument feed = inr url) /\
  (forall x, feed = VStr x -> _feed_argument feed = inr feed) /\
  (getattr feed "url" = None -> is_str feed = false ->
   _feed_argument feed = inl (InvalidFeedArgument feed) /\
   forall entry id, getattr entry "id" = Some id ->
     getattr entry "feed_url" = Some feed ->
     _entry_argument entry = inl (InvalidFeedArgument feed)) /\
  (forall url entry id, getattr feed "url" = Some url ->
     getattr entry "id" = Some id -> getattr entry "feed_url" = Some feed ->
     _entry_argument entry = inr (VTuple [url; id])).
Proof.
  split; [|split; [|split]].
  - intros url H. unfold _feed_argument. now rewrite H.
  - intros x ->. reflexivity.
  - intros Hu Hs.
    assert (E : _feed_argument feed = inl (InvalidFeedArgument feed)).
    { unfold _feed_argument. rewrite Hu. destruct feed; try reflexivity. discriminate. }
    split; [exact E|]. intros entry id Hid Hf.
    unfold _entry_argument. now rewrite Hid, Hf, E.
  - intros url entry id Hu Hid Hf. unfold _entry_argument.
    rewrite Hid, Hf. unfold _feed_argument. now rewrite Hu.
Qed.

Lemma feed_argument_cases_witness :
  _entry_argument
    (VObject [("id", VStr "1");
              ("feed_url", VObject [("url", VStr "http://f")])]) =
  inr (VTuple [VStr "http://f"; VStr "1"]) /\
  _entry_argument (VObject [("id", VStr "1"); ("feed_url", VInt 3)]) =
  inl (InvalidFeedArgument (VInt 3)).
Proof.
  split.
  - apply (proj2 (proj2 (proj2 (feed_argument_cases
             (VObject [("url", VStr "http://f")]))))); reflexivity.
  - apply (proj2 (proj1 (proj2 (proj2 (feed_argument_cases (VInt 3))))
                        eq_refl eq_refl)
             (VObject [("id", VStr "1"); ("feed_url", VInt 3)]) (VStr "1"));
      reflexivity.
Defined.

End FeedArgs.

(** ** [reader/_sql_utils.py]: the query builder *)

Module Sql.

Local Open Scope string_scope.

(** *** [str] methods *)

Definition nl : string := String "010"%char EmptyString.

(** The cased characters among the code points below 256. *)
Definition is_upper_char (c : ascii) : bool :=
  let n := nat_of_ascii c in
  (((65 <=? n) && (n <=? 90)) || ((192 <=? n) && (n <=? 214))
   || ((216 <=? n) && (n <=? 222)))%nat.

Definition is_lower_char (c : ascii) : bool :=
  let n := nat_of_ascii c in
  (((97 <=? n) && (n <=? 122)) || (n =? 170) || (n =? 181) || (n =? 186)
   || ((223 <=? n) && (n <=? 246)) || ((248 <=? n) && (n <=? 255)))%nat.

(** [s.isupper()]: no lowercase character and at least one uppercase one. *)
Fixpoint isupper_from (cased : bool) (x : string) : bool :=
  match x with
  | EmptyString => cased
  | String c x' =>
      if is_lower_char c then false
      else isupper_from (cased || is_upper_char c) x'
  end.

Definition isupper (x : string) : bool := isupper_from false x.

(** [s.replace(a, b)] for single characters [a] and [b]. *)
Fixpoint replace (a b : ascii) (x : string) : string :=
  match x with
  | EmptyString => EmptyString
  | String c x' => String (if Ascii.eqb c a then b else c) (replace a b x')
  end.

(** [needle in x] *)
Fixpoint contains (needle x : string) : bool :=
  prefix needle x
  || match x with EmptyString => false | String _ x' => contains needle x' end.

(** [x.startswith(p)] *)
Definition startswith (x p : string) : bool := prefix p x.

(** [xs.index(x)], [None] standing for the [ValueError]. *)
Fixpoint index (x : string) (xs : list string) : option nat :=
  match xs with
  | [] => None
  | y :: xs' => if String.eqb y x then Some 0 else option_map S (index x xs')
  end.

(** [str(i)] for a natural number. *)
Definition str_of_nat (i : nat) : string := NilEmpty.string_of_uint (Nat.to_uint i).

(** *** Exceptions *)

Inductive exn : Type :=
| AttributeError (type_name name : string)
| KeyError_len (n : nat)
| KeyError_keyword (keyword : string).

Definition bind (A B : Type) (m : exn + A) (f : A -> exn + B) : exn + B :=
  match m with inl e => inl e | inr a => f a end.

Notation "x <- m ;; k" := (bind m (fun x => k))
  (at level 61, m at next level, right associativity).

(** *** The library functions of [_clean_up] and [_indent]

    [textwrap.dedent], [textwrap.indent], [str.strip] and [str.rstrip] are
    taken as they are. *)
Class Textwrap : Type := {
  dedent : string -> string;
  indent : string -> string -> string;
  strip : string -> string;
  rstrip : string -> string
}.

(** *** BaseQuery *)

(** A fragment: a string or a tuple of strings. *)
Inductive QArg : Type :=
| Str (x : string)
| Tup (xs : list string).

(** The [OrderedDict] from keywords to lists of cleaned-up tuples, in
    insertion order. *)
Definition BaseQuery : Type := list (string * list (list string)).

(** The key of a keyword: a position in [_keyword_order] or
    [float('inf')]. *)
Inductive key : Type :=
| Index (i : nat)
| Infinity.

Definition key_ltb (a b : key) : bool :=
  match a, b with
  | Index i, Index j => (i <? j)%nat
  | Index _, Infinity => true
  | Infinity, _ => false
  end.

Definition default_separators : list (string * string) :=
  [("WHERE", "AND"); ("HAVING", "AND")].

Definition _fuzzy_keywords : list (string * (string -> bool)) :=
  [ ("JOIN", fun x => contains "JOIN" x);
    ("INSERT", fun x => startswith x "INSERT");
    ("INSERT", fun x => startswith x "REPLACE");
    ("UPDATE", fun x => startswith x "UPDATE");
    ("DELETE", fun x => startswith x "DELETE") ].

Definition _keyword_order : list string :=
  [ "WITH"; "INSERT"; "VALUES"; "UPDATE"; "SET"; "DELETE"; "SELECT"; "FROM";
    "JOIN"; "WHERE"; "GROUP BY"; "HAVING"; "ORDER BY"; "LIMIT" ].

Fixpoint fuzzy (fs : list (string * (string -> bool))) (keyword : string) : string :=
  match fs with
  | [] => keyword
  | (fuzzy_keyword, predicate) :: fs' =>
      if predicate keyword then fuzzy_keyword else fuzzy fs' keyword
  end.

Definition _keyword_key (keyword : string) : key :=
  match index (fuzzy _fuzzy_keywords keyword) _keyword_order with
  | Some i => Index i
  | None => Infinity
  end.

Fixpoint lookup (k : string) (d : list (string * string)) : option string :=
  match d with
  | [] => None
  | (k', x) :: d' => if String.eqb k' k then Some x else lookup k d'
  end.

Definition _get_separator (keyword : string) : string :=
  if contains "JOIN" keyword then nl ++ keyword
  else match lookup keyword default_separators with
       | Some sep => " " ++ sep
       | None => ","
       end.

Section Builder.
Context {TW : Textwrap}.

Definition _clean_up (thing : string) : string := strip (dedent (rstrip thing)).

Definition _indent (text : string) : string := indent text "    ".

(** [setdefault(keyword, [])] followed by the [append]s to the list. *)
Fixpoint extend (self : BaseQuery) (keyword : string) (new : list (list string))
  : BaseQuery :=
  match self with
  | [] => [(keyword, new)]
  | (k, things) :: rest =>
      if String.eqb k keyword then (k, (things ++ new)%list) :: rest
      else (k, things) :: extend rest keyword new
  end.

Definition as_tuple (maybe_thing : QArg) : list string :=
  match maybe_thing with Str x => [x] | Tup xs => xs end.

(** [add]: the state of [self] after the call, which returns [self]. *)
Definition add (self : BaseQuery) (keyword : string) (things : list QArg)
  : BaseQuery :=
  extend self keyword (map (fun a => map _clean_up (as_tuple a)) things).

(** [__getattr__]: the [partial] of [self.add], as a function of the state
    of [self]. *)
Definition __getattr__ (type_name name : string)
  : exn + (BaseQuery -> list QArg -> BaseQuery) :=
  if negb (isupper name) then inl (AttributeError type_name name)
  else inr (fun self things => add self (replace "_" " " name) things).

(** One fragment, formatted with [_keyword_formats[len(maybe_thing)][keyword]]
    and indented. *)
Definition format_thing (keyword : string) (maybe_thing : list string)
  : exn + string :=
  match maybe_thing with
  | [thing] => inr (_indent thing)
  | [name; thing] =>
      if String.eqb keyword "SELECT" then inr (_indent (thing ++ " AS " ++ name))
      else if String.eqb keyword "WITH" then
        inr (_indent (name ++ " AS (" ++ nl ++ _indent thing ++ nl ++ ")"))
      else inl (KeyError_keyword keyword)
  | _ => inl (KeyError_len (length maybe_thing))
  end.

(** The inner loop of [_lines], over [enumerate(things, 1)]. *)
Fixpoint lines_of_things (keyword : string) (len_things : nat)
         (things : list (nat * list string)) : exn + list string :=
  match things with
  | [] => inr []
  | (i, maybe_thing) :: rest =>
      line <- format_thing keyword maybe_thing ;;
      more <- lines_of_things keyword len_things rest ;;
      inr (line :: ((if (i <? len_things)%nat then [_get_separator keyword] else [])
                    ++ nl :: more)%list)
  end.

(** The outer loop of [_lines]. *)
Fixpoint lines_of_pairs (pairs : BaseQuery) : exn + list string :=
  match pairs with
  | [] => inr []
  | (keyword, things) :: rest =>
      match things with
      | [] => lines_of_pairs rest
      | _ :: _ =>
          block <- lines_of_things keyword (length things)
                                   (Py.enumerate_from 1 things) ;;
          more <- lines_of_pairs rest ;;
          inr ((keyword ++ nl) :: (block ++ more)%list)
      end
  end.

Definition sorted_pairs (self : BaseQuery) : BaseQuery :=
  Py.sorted (fun p => _keyword_key (fst p)) key_ltb self.

Definition _lines (self : BaseQuery) : exn + list string :=
  lines_of_pairs (sorted_pairs self).

Definition to_str (self : BaseQuery) (end_ : string) : exn + string :=
  ls <- _lines self ;; inr (String.concat "" ls ++ end_).

Definition __str__ (self : BaseQuery) : exn + string := to_str self (";" ++ nl).

(** *** ScrollingWindowMixin and Query *)

(** A [Query]: the dictionary and the three private attributes of the
    mixin. *)
Record Query : Type := {
  clauses : BaseQuery;
  __things : list string;
  __desc : bool;
  __keyword : string
}.

Definition add_clauses (self : Query) (keyword : string) (things : list QArg)
  : Query :=
  {| clauses := add (clauses self) keyword things;
     __things := __things self; __desc := __desc self;
     __keyword := __keyword self |}.

Definition scrolling_window_order_by (self : Query) (things : list string)
           (desc : bool) (keyword : string) : exn + Query :=
  let order := if desc then "DESC" else "ASC" in
  ORDER_BY <- __getattr__ "Query" "ORDER_BY" ;;
  inr {| clauses := ORDER_BY (clauses self)
                             (map (fun thing => Str (thing ++ " " ++ order)) things);
         __things := map _clean_up things;
         __desc := desc;
         __keyword := keyword |}.

(** [Query()]: an empty dictionary, then
    [self.scrolling_window_order_by()] with its defaults. *)
Definition Query_new : exn + Query :=
  scrolling_window_order_by
    {| clauses := []; __things := []; __desc := false; __keyword := "" |}
    [] false "WHERE".

Definition __make_label (i : nat) : string := "last_" ++ str_of_nat i.

(** [LIMIT]; [last] is the truth value of the keyword argument. *)
Definition LIMIT (self : Query) (things : list string) (last : bool)
  : exn + Query :=
  let self := add_clauses self "LIMIT" (map Str things) in
  if negb last then inr self
  else
    let op := if __desc self then "<" else ">" in
    let labels := map (fun i => ":" ++ __make_label i)
                      (seq 0 (length (__things self))) in
    q <- Query_new ;;
    let q := add_clauses q "(" (map Str (__things self)) in
    let q := add_clauses q (") " ++ op ++ " (") (map Str labels) in
    text <- to_str (clauses q) ")" ;;
    inr (add_clauses self (__keyword self) [Str text]).

(** [last_params(last)] *)
Definition last_params (A : Type) (last : option (list A)) : list (string * A) :=
  map (fun p => (__make_label (fst p), snd p))
      (Py.enumerate_from 0 (match last with Some l => l | None => [] end)).

(** *** Builders as objects

    A builder is a mutable object.  [heap] gives the state of the object at
    each address; a method that changes [self] and ends in [return self]
    returns the address it was called on. *)
Definition heap : Type := nat -> BaseQuery.

Definition update (h : heap) (self : nat) (q : BaseQuery) : heap :=
  fun a => if Nat.eqb a self then q else h a.

Definition obj_add (self : nat) (keyword : string) (things : list QArg)
           (h : heap) : nat * heap :=
  (self, update h self (add (h self) keyword things)).

(** [getattr(self, name)] when the ordinary lookup finds nothing, and the
    call of the [partial] it returns. *)
Definition obj_getattr (type_name : string) (self : nat) (name : string)
  : exn + (list QArg -> heap -> nat * heap) :=
  f <- __getattr__ type_name name ;;
  inr (fun things h => (self, update h self (f (h self) things))).


(** *** Facts about strings, lists and [sorted] used for the builder *)

Lemma append_assoc (a b c : string) : (a ++ b) ++ c = a ++ (b ++ c).
Proof. induction a as [|x a IH]; simpl; [reflexivity|now rewrite IH]. Qed.

Lemma Permutation_filter (A : Type) (f : A -> bool) (l l' : list A) :
  Permutation l l' -> Permutation (filter f l) (filter f l').
Proof.
  induction 1 as [|x l l' _ IH|x y l|l l' l'' _ IH1 _ IH2]; simpl.
  - constructor.
  - destruct (f x); [now constructor|exact IH].
  - destruct (f x), (f y); try reflexivity. apply perm_swap.
  - now transitivity (filter f l').
Qed.

Lemma StronglySorted_filter (A : Type) (R : A -> A -> Prop) (f : A -> bool)
      (l : list A) :
  StronglySorted R l -> StronglySorted R (filter f l).
Proof.
  induction 1 as [|x l Hs IH Hx]; simpl; [constructor|].
  destruct (f x); [|exact IH]. constructor; [exact IH|].
  rewrite Forall_forall in *. intros y Hy. apply filter_In in Hy. now apply Hx.
Qed.

Lemma StronglySorted_map (A B : Type) (R : B -> B -> Prop) (g : A -> B)
      (l : list A) :
  StronglySorted (fun a b => R (g a) (g b)) l -> StronglySorted R (map g l).
Proof.
  induction 1 as [|x l Hs IH Hx]; simpl; constructor; [exact IH|].
  rewrite Forall_forall in *. intros y Hy. apply in_map_iff in Hy.
  destruct Hy as (z & <- & Hz). now apply Hx.
Qed.

Lemma filter_map_fst (A B : Type) (f : A -> bool) (l : list (A * B)) :
  filter f (map fst l) = map fst (filter (fun p => f (fst p)) l).
Proof.
  induction l as [|p l IH]; simpl; [reflexivity|].
  destruct (f (fst p)); simpl; now rewrite IH.
Qed.

Lemma filter_filter (A : Type) (f g : A -> bool) (l : list A) :
  filter f (filter g l) = filter (fun x => g x && f x) l.
Proof.
  induction l as [|x l IH]; simpl; [reflexivity|].
  destruct (g x); simpl; [destruct (f x)|]; now rewrite IH.
Qed.

(** *** The order of the keywords *)

Definition key_eqb (a b : key) : bool :=
  match a, b with
  | Index i, Index j => Nat.eqb i j
  | Infinity, Infinity => true
  | _, _ => false
  end.

Lemma key_ltb_asym (a b : key) : key_ltb a b = true -> key_ltb b a = false.
Proof.
  destruct a, b; simpl; try reflexivity; try discriminate.
  rewrite Nat.ltb_lt, Nat.ltb_ge. lia.
Qed.

Lemma key_le_trans (a b c : key) :
  key_ltb b a = false -> key_ltb c b = false -> key_ltb c a = false.
Proof.
  destruct a, b, c; simpl; try reflexivity; try discriminate.
  rewrite !Nat.ltb_ge. lia.
Qed.

Lemma key_ltb_neq (a b c : key) :
  key_ltb a b = true -> key_eqb b c = true -> key_eqb a c = false.
Proof.
  destruct a, b, c; simpl; try reflexivity; try discriminate.
  rewrite Nat.ltb_lt, Nat.eqb_eq, Nat.eqb_neq. lia.
Qed.

Definition has_things (p : string * list (list string)) : bool :=
  match snd p with [] => false | _ :: _ => true end.

(** The keywords that hold at least one fragment, in insertion order. *)
Definition keywords_with_things (self : BaseQuery) : list string :=
  map fst (filter has_things self).

(** The keywords whose line [_lines] yields, in the order it yields them. *)
Definition rendered_keywords (self : BaseQuery) : list string :=
  map fst (filter has_things (sorted_pairs self)).

(** [keyword] sorts where [slot] does. *)
Definition sorts_at (keyword slot : string) : Prop :=
  _keyword_key keyword = _keyword_key slot.

Lemma startswith_head (x p q : string) (a b : ascii) :
  a <> b ->
  startswith x (String a p) = true -> startswith x (String b q) = false.
Proof.
  intros Hab. unfold startswith. destruct x as [|c x]; simpl; [discriminate|].
  destruct (ascii_dec a c) as [<-|]; [|discriminate].
  now destruct (ascii_dec b a) as [->|].
Qed.

Lemma keyword_key_join (k : string) :
  contains "JOIN" k = true -> sorts_at k "JOIN".
Proof. intros H. unfold sorts_at, _keyword_key. simpl fuzzy. now rewrite H. Qed.

Lemma keyword_key_insert (k : string) :
  contains "JOIN" k = false ->
  startswith k "INSERT" || startswith k "REPLACE" = true ->
  sorts_at k "INSERT".
Proof.
  intros H1 H2. unfold sorts_at, _keyword_key. simpl fuzzy. rewrite H1.
  destruct (startswith k "INSERT"); [reflexivity|].
  simpl in H2. now rewrite H2.
Qed.

Lemma keyword_key_update (k : string) :
  contains "JOIN" k = false -> startswith k "UPDATE" = true ->
  sorts_at k "UPDATE".
Proof.
  intros H1 H2. unfold sorts_at, _keyword_key. simpl fuzzy. rewrite H1, H2.
  rewrite (@startswith_head k "PDATE" "NSERT" "U" "I") by (discriminate || assumption).
  now rewrite (@startswith_head k "PDATE" "EPLACE" "U" "R") by (discriminate || assumption).
Qed.

Lemma keyword_key_delete (k : string) :
  contains "JOIN" k = false -> startswith k "DELETE" = true ->
  sorts_at k "DELETE".
Proof.
  intros H1 H2. unfold sorts_at, _keyword_key. simpl fuzzy. rewrite H1, H2.
  rewrite (@startswith_head k "ELETE" "NSERT" "D" "I") by (discriminate || assumption).
  rewrite (@startswith_head k "ELETE" "EPLACE" "D" "R") by (discriminate || assumption).
  now rewrite (@startswith_head k "ELETE" "PDATE" "D" "U") by (discriminate || assumption).
Qed.

(** A keyword that no fuzzy predicate accepts. *)
Definition exact (k : string) : bool :=
  negb (contains "JOIN" k) && negb (startswith k "INSERT")
  && negb (startswith k "REPLACE") && negb (startswith k "UPDATE")
  && negb (startswith k "DELETE").

Lemma keyword_key_exact (k : string) :
  exact k = true ->
  _keyword_key k =
  match index k _keyword_order with Some i => Index i | None => Infinity end.
Proof.
  unfold exact. rewrite !andb_true_iff, !negb_true_iff.
  intros ((((H1 & H2) & H3) & H4) & H5).
  unfold _keyword_key. simpl fuzzy. now rewrite H1, H2, H3, H4, H5.
Qed.

Lemma lines_of_pairs_blocks (pairs : BaseQuery) (out : list string) :
  lines_of_pairs pairs = inr out ->
  exists bodies : list (list string),
    length bodies = length (filter has_things pairs) /\
    out = concat (map (fun kb => (fst kb ++ nl) :: snd kb)
                      (combine (map fst (filter has_things pairs)) bodies)).
Proof.
  revert out. induction pairs as [|[k things] pairs IH]; intros out H.
  - injection H as <-. now exists [].
  - destruct things as [|thing things].
    + simpl in H. apply IH in H. exact H.
    + cbn [lines_of_pairs] in H.
      destruct (lines_of_things k _ _) as [e|block]; [discriminate|].
      destruct (lines_of_pairs pairs) as [e|more]; [discriminate|].
      injection H as <-.
      destruct (IH more eq_refl) as (bodies & Hlen & ->).
      exists (block :: bodies). split; [simpl; now rewrite Hlen|reflexivity].
Qed.

(** C3, as the code has it: [_lines] yields one block per keyword that
    holds a fragment; the blocks come sorted by the position of the keyword
    in [_keyword_order], keywords with the same position (and those with
    none, which come last) in insertion order.  A keyword containing JOIN
    sorts at JOIN; a keyword without JOIN sorts at INSERT when it starts
    with INSERT or REPLACE, at UPDATE when it starts with UPDATE, at DELETE
    when it starts with DELETE; any other keyword sorts at its own position
    in the table, or after all of them when it is not in the table. *)
Theorem lines_keyword_order (self : BaseQuery) (out : list string) :
  _lines self = inr out ->
  (exists bodies : list (list string),
     length bodies = length (rendered_keywords self) /\
     out = concat (map (fun kb => (fst kb ++ nl) :: snd kb)
                       (combine (rendered_keywords self) bodies))) /\
  Permutation (rendered_keywords self) (keywords_with_things self) /\
  StronglySorted (fun a b => key_ltb (_keyword_key b) (_keyword_key a) = false)
                 (rendered_keywords self) /\
  (forall c : key,
     filter (fun k => key_eqb (_keyword_key k) c) (rendered_keywords self) =
     filter (fun k => key_eqb (_keyword_key k) c) (keywords_with_things self)) /\
  map _keyword_key _keyword_order = map Index (seq 0 14) /\
  (forall i, key_ltb (Index i) Infinity = true) /\
  (forall k, contains "JOIN" k = true -> sorts_at k "JOIN") /\
  (forall k, contains "JOIN" k = false ->
     startswith k "INSERT" || startswith k "REPLACE" = true ->
     sorts_at k "INSERT") /\
  (forall k, contains "JOIN" k = false -> startswith k "UPDATE" = true ->
     sorts_at k "UPDATE") /\
  (forall k, contains "JOIN" k = false -> startswith k "DELETE" = true ->
     sorts_at k "DELETE") /\
  (forall k, exact k = true ->
     _keyword_key k =
     match index k _keyword_order with Some i => Index i | None => Infinity end).
Proof.
  intros Hout. split.
  { unfold _lines in Hout. apply lines_of_pairs_blocks in Hout.
    destruct Hout as (bodies & Hlen & ->). exists bodies.
    unfold rendered_keywords. rewrite length_map. now split. }
  split.
  { unfold rendered_keywords, keywords_with_things, sorted_pairs.
    apply Permutation_map, Permutation_filter, Py.sorted_perm. }
  split.
  { unfold rendered_keywords, sorted_pairs.
    apply StronglySorted_map, StronglySorted_filter.
    apply (Py.sorted_StronglySorted (fun p : string * list (list string) =>
                                       _keyword_key (fst p)) key_ltb).
    - apply key_ltb_asym.
    - apply key_le_trans. }
  split.
  { intros c. unfold rendered_keywords, keywords_with_things, sorted_pairs.
    rewrite !filter_map_fst, !filter_filter. f_equal.
    apply Py.sorted_filter. intros x y Hlt Hx.
    apply andb_prop in Hx. destruct Hx as [_ Hx].
    now rewrite (key_ltb_neq _ _ _ Hlt Hx), andb_false_r. }
  split; [reflexivity|]. split; [reflexivity|].
  split; [exact keyword_key_join|]. split; [exact keyword_key_insert|].
  split; [exact keyword_key_update|]. split; [exact keyword_key_delete|].
  exact keyword_key_exact.
Qed.

(** *** Separators *)

(** The lines of the fragments of one keyword, formatted one by one. *)
Fixpoint format_all (keyword : string) (things : list (list string))
  : exn + list string :=
  match things with
  | [] => inr []
  | maybe_thing :: rest =>
      line <- format_thing keyword maybe_thing ;;
      more <- format_all keyword rest ;;
      inr (line :: more)
  end.

(** Lines joined with a separator: the separator and a newline after each
    line but the last, a newline after the last. *)
Fixpoint join_lines (sep : string) (ls : list string) : list string :=
  match ls with
  | [] => []
  | l :: ls' =>
      match ls' with
      | [] => [l; nl]
      | _ :: _ => l :: sep :: nl :: join_lines sep ls'
      end
  end.

Lemma get_separator_cases (keyword : string) :
  _get_separator keyword =
  if contains "JOIN" keyword then nl ++ keyword
  else if String.eqb "WHERE" keyword || String.eqb "HAVING" keyword then " AND"
  else ",".
Proof.
  unfold _get_separator. destruct (contains "JOIN" keyword); [reflexivity|].
  unfold default_separators. cbn [lookup].
  destruct (String.eqb "WHERE" keyword); [reflexivity|].
  destruct (String.eqb "HAVING" keyword); reflexivity.
Qed.

Lemma lines_of_things_join (keyword : string) (things : list (list string))
      (j : nat) :
  lines_of_things keyword (j + length things) (Py.enumerate_from (S j) things) =
  (ls <- format_all keyword things ;;
   inr (join_lines (_get_separator keyword) ls)).
Proof.
  revert j. induction things as [|thing things IH]; intros j; [reflexivity|].
  cbn [Py.enumerate_from lines_of_things format_all length].
  replace (j + S (length things)) with (S j + length things) by lia.
  rewrite IH. unfold bind.
  destruct (format_thing keyword thing) as [e|line]; [reflexivity|].
  destruct (format_all keyword things) as [e|more] eqn:E; [reflexivity|].
  f_equal. cbn [join_lines]. destruct things as [|thing' things].
  - injection E as <-. simpl length.
    replace (S j <? S j + 0)%nat with false; [reflexivity|].
    symmetry. apply Nat.ltb_ge. lia.
  - replace (S j <? S j + length (thing' :: things))%nat with true.
    + destruct more as [|l more]; [|reflexivity].
      simpl in E. unfold bind in E.
      destruct (format_thing keyword thing'); [discriminate|].
      destruct (format_all keyword things); discriminate.
    + symmetry. apply Nat.ltb_lt. simpl. lia.
Qed.

(** *** Attribute access *)

Definition is_AZ (c : ascii) : bool :=
  let n := nat_of_ascii c in ((65 <=? n) && (n <=? 90))%nat.

Definition upper_or_underscore (c : ascii) : bool := is_AZ c || Ascii.eqb c "_".

(** A name made of the letters A to Z and underscores, with at least one
    letter. *)
Definition uppercase_name (name : string) : bool :=
  forallb upper_or_underscore (list_ascii_of_string name)
  && existsb is_AZ (list_ascii_of_string name).

Definition has_lower (name : string) : bool :=
  existsb is_lower_char (list_ascii_of_string name).

Definition has_cased (name : string) : bool :=
  existsb (fun c => is_upper_char c || is_lower_char c) (list_ascii_of_string name).

Lemma upper_or_underscore_not_lower (c : ascii) :
  upper_or_underscore c = true -> is_lower_char c = false.
Proof. destruct c as [[] [] [] [] [] [] [] []]; vm_compute; congruence. Qed.

Lemma is_AZ_upper (c : ascii) : is_AZ c = true -> is_upper_char c = true.
Proof. destruct c as [[] [] [] [] [] [] [] []]; vm_compute; congruence. Qed.

Lemma isupper_from_lower (cased : bool) (name : string) :
  has_lower name = true -> isupper_from cased name = false.
Proof.
  revert cased. unfold has_lower.
  induction name as [|c name IH]; intros cased; simpl; [discriminate|].
  destruct (is_lower_char c); [reflexivity|]. simpl. apply IH.
Qed.

Lemma isupper_from_uncased (name : string) :
  has_cased name = false -> isupper_from false name = false.
Proof.
  unfold has_cased. induction name as [|c name IH]; simpl; [reflexivity|].
  intros H. apply orb_false_elim in H. destruct H as [H1 H2].
  apply orb_false_elim in H1. destruct H1 as [-> ->]. simpl. now apply IH.
Qed.

Lemma isupper_from_upper (cased : bool) (name : string) :
  forallb upper_or_underscore (list_ascii_of_string name) = true ->
  isupper_from cased name = cased || existsb is_AZ (list_ascii_of_string name).
Proof.
  revert cased. induction name as [|c name IH]; intros cased; simpl.
  - now rewrite orb_false_r.
  - intros H. apply andb_prop in H. destruct H as [Hc H].
    rewrite (upper_or_underscore_not_lower _ Hc), (IH _ H).
    destruct (is_AZ c) eqn:E.
    + rewrite (is_AZ_upper _ E). now rewrite !orb_true_r.
    + destruct cased; [reflexivity|]. simpl.
      destruct (is_upper_char c) eqn:U; [|reflexivity].
      unfold upper_or_underscore in Hc. rewrite E in Hc. simpl in Hc.
      apply Ascii.eqb_eq in Hc. subst c. vm_compute in U. discriminate.
Qed.

Lemma isupper_uppercase_name (name : string) :
  uppercase_name name = true -> isupper name = true.
Proof.
  unfold uppercase_name, isupper. intros H. apply andb_prop in H.
  destruct H as [H1 H2]. now rewrite isupper_from_upper, H2.
Qed.

(** C10, as the code has it: for a name on which [isupper()] is true, as
    every name made of the letters A to Z and underscores with at least one
    letter is, the attribute is a callable that does what [add] does with
    the underscores of the name turned into spaces, and returns the builder
    it was looked up on; for a name on which [isupper()] is false, as every
    name with a lowercase character and every name without a cased
    character is, the lookup raises [AttributeError]. *)
Theorem getattr_registers_clause (type_name : string) (self : nat)
        (name : string) :
  (isupper name = true ->
   exists f, obj_getattr type_name self name = inr f /\
     forall things h,
       f things h = obj_add self (replace "_" " " name) things h /\
       fst (f things h) = self) /\
  (isupper name = false ->
   obj_getattr type_name self name = inl (AttributeError type_name name)) /\
  (uppercase_name name = true -> isupper name = true) /\
  (has_lower name = true \/ has_cased name = false -> isupper name = false).
Proof.
  split; [|split; [|split]].
  - intros H. unfold obj_getattr, __getattr__. rewrite H. simpl.
    eexists. split; [reflexivity|]. intros things h. now split.
  - intros H. unfold obj_getattr, __getattr__. now rewrite H.
  - apply isupper_uppercase_name.
  - intros [H|H]; [now apply isupper_from_lower|now apply isupper_from_uncased].
Qed.

(** *** Scrolling window *)

Lemma append_nil_r (a : string) : a ++ "" = a.
Proof. induction a as [|x a IH]; simpl; [reflexivity|now rewrite IH]. Qed.

Lemma concat_cons (x : string) (l : list string) :
  String.concat "" (x :: l) = x ++ String.concat "" l.
Proof. destruct l; simpl; [now rewrite append_nil_r|reflexivity]. Qed.

Lemma concat_app (l l' : list string) :
  String.concat "" (l ++ l') = String.concat "" l ++ String.concat "" l'.
Proof.
  induction l as [|x l IH]; [reflexivity|].
  rewrite <- app_comm_cons, !concat_cons, IH. now rewrite append_assoc.
Qed.

Lemma format_all_singles (keyword : string) (xs : list string) :
  format_all keyword (map (fun x => [x]) xs) = inr (map _indent xs).
Proof.
  induction xs as [|x xs IH]; [reflexivity|]. simpl. now rewrite IH.
Qed.

(** The block of a keyword whose fragments are single strings. *)
Lemma lines_of_pairs_singles (keyword : string) (xs : list string)
      (rest : BaseQuery) :
  xs <> [] ->
  lines_of_pairs ((keyword, map (fun x => [x]) xs) :: rest) =
  (more <- lines_of_pairs rest ;;
   inr ((keyword ++ nl)
          :: (join_lines (_get_separator keyword) (map _indent xs) ++ more)%list)).
Proof.
  intros Hne. set (things := map (fun x => [x]) xs).
  assert (Hth : things <> []).
  { subst things. destruct xs; [congruence|discriminate]. }
  assert (E : lines_of_pairs ((keyword, things) :: rest) =
              (block <- lines_of_things keyword (0 + length things)
                                        (Py.enumerate_from 1 things) ;;
               more <- lines_of_pairs rest ;;
               inr ((keyword ++ nl) :: (block ++ more)%list))).
  { destruct things; [congruence|reflexivity]. }
  rewrite E, lines_of_things_join. subst things.
  now rewrite format_all_singles.
Qed.

Lemma add_strs (self : BaseQuery) (keyword : string) (xs : list string) :
  add self keyword (map Str xs) =
  extend self keyword (map (fun x => [x]) (map _clean_up xs)).
Proof. unfold add. now rewrite !map_map. Qed.

(** The blocks of the keywords, in the order given: for each keyword that
    holds fragments, the keyword on a line of its own, then its formatted
    fragments joined with its separator. *)
Fixpoint blocks (pairs : BaseQuery) : exn + list string :=
  match pairs with
  | [] => inr []
  | (keyword, things) :: rest =>
      match things with
      | [] => blocks rest
      | _ :: _ =>
          ls <- format_all keyword things ;;
          more <- blocks rest ;;
          inr ((keyword ++ nl)
                 :: (join_lines (_get_separator keyword) ls ++ more)%list)
      end
  end.

Lemma lines_of_pairs_joined (pairs : BaseQuery) :
  lines_of_pairs pairs = blocks pairs.
Proof.
  induction pairs as [|[k things] pairs IH]; [reflexivity|].
  destruct things as [|thing things]; [exact IH|].
  cbn [lines_of_pairs blocks].
  pose proof (lines_of_things_join k (thing :: things) 0) as E.
  cbn [Nat.add] in E. rewrite E, IH. unfold bind.
  now destruct (format_all k (thing :: things)).
Qed.

(** C9: the separator of a keyword is newline and the keyword when the
    keyword contains JOIN, [" AND"] for WHERE and HAVING, a comma otherwise;
    the block of a keyword is its formatted fragments joined with that
    separator, and the lines of every builder are the blocks of its
    keywords that hold fragments, in the order of rendering; so the
    fragments added as strings under one keyword render as the keyword
    and the fragments with the separator after each but the last; and a
    builder with [add('WHERE', 'a=1')] then [add('WHERE', 'b=2')] renders
    one WHERE block with both fragments joined with AND. *)
Theorem render_separators :
  (forall keyword,
     _get_separator keyword =
     if contains "JOIN" keyword then nl ++ keyword
     else if String.eqb "WHERE" keyword || String.eqb "HAVING" keyword
          then " AND" else ",") /\
  (forall keyword things,
     lines_of_things keyword (length things) (Py.enumerate_from 1 things) =
     (ls <- format_all keyword things ;;
      inr (join_lines (_get_separator keyword) ls))) /\
  (forall self, _lines self = blocks (sorted_pairs self)) /\
  (forall self end_,
     to_str self end_ =
     (ls <- blocks (sorted_pairs self) ;; inr (String.concat "" ls ++ end_))) /\
  (forall keyword f fs end_,
     to_str (add [] keyword (map Str (f :: fs))) end_ =
     inr (keyword ++ nl
          ++ String.concat ""
               (join_lines (_get_separator keyword)
                           (map (fun x => _indent (_clean_up x)) (f :: fs)))
          ++ end_)) /\
  (forall end_,
     to_str (add (add [] "WHERE" [Str "a=1"]) "WHERE" [Str "b=2"]) end_ =
     inr ("WHERE" ++ nl ++ _indent (_clean_up "a=1") ++ " AND" ++ nl
          ++ _indent (_clean_up "b=2") ++ nl ++ end_)).
Proof.
  split; [exact get_separator_cases|]. split.
  { intros keyword things. apply (lines_of_things_join keyword things 0). }
  split.
  { intros self. apply lines_of_pairs_joined. }
  split.
  { intros self end_. unfold to_str, _lines. now rewrite lines_of_pairs_joined. }
  split.
  - intros keyword f fs end_. rewrite add_strs.
    unfold to_str, _lines, sorted_pairs, Py.sorted.
    cbn [extend fold_right Py.insert_stable].
    rewrite lines_of_pairs_singles by discriminate.
    cbn [lines_of_pairs bind]. rewrite app_nil_r, map_map. f_equal.
    rewrite concat_cons. now rewrite !append_assoc.
  - intros end_. unfold to_str, _lines, sorted_pairs. simpl.
    do 7 f_equal. rewrite append_assoc. simpl. now rewrite append_assoc.
Qed.

(** The attributes that [scrolling_window_order_by], called with the keys
    [ks], [desc=d] and [keyword=kw], leaves on the query. *)
Definition recorded (q : Query) (ks : list string) (d : bool) (kw : string)
  : Prop :=
  __things q = map _clean_up ks /\ __desc q = d /\ __keyword q = kw.

(** The parameters [:last_0], ..., [:last_{n-1}]. *)
Definition labels (n : nat) : list string :=
  map (fun i => ":" ++ "last_" ++ str_of_nat i) (seq 0 n).

(** The items of a tuple, one per line, indented, with commas in between. *)
Definition tuple_body (items : list string) : string :=
  String.concat "" (join_lines "," (map _indent items)).

(** The text [(k1, ..., kn) op (l1, ..., ln)], as the builder lays it
    out. *)
Definition comparison (op : string) (ks ls : list string) : string :=
  "(" ++ nl ++ tuple_body ks ++ ") " ++ op ++ " (" ++ nl ++ tuple_body ls ++ ")".

Lemma comparison_to_str (op : string) (ks ls : list string) :
  op = "<" \/ op = ">" -> ks <> [] -> ls <> [] ->
  to_str (extend (extend [("ORDER BY", [])] "(" (map (fun x => [x]) ks))
                 (") " ++ op ++ " (") (map (fun x => [x]) ls)) ")" =
  inr (comparison op ks ls).
Proof.
  intros Hop Hks Hls.
  assert (Hs : sorted_pairs
                 (extend (extend [("ORDER BY", [])] "(" (map (fun x => [x]) ks))
                         (") " ++ op ++ " (") (map (fun x => [x]) ls)) =
               [("ORDER BY", []); ("(", map (fun x => [x]) ks);
                (") " ++ op ++ " (", map (fun x => [x]) ls)]).
  { destruct Hop as [-> | ->]; reflexivity. }
  unfold to_str, _lines. rewrite Hs.
  change (lines_of_pairs (("ORDER BY", []) :: ?r)) with (lines_of_pairs r).
  rewrite lines_of_pairs_singles by assumption.
  rewrite lines_of_pairs_singles by assumption.
  cbn [lines_of_pairs bind]. f_equal.
  assert (E1 : _get_separator "(" = ",") by reflexivity.
  assert (E2 : _get_separator (") " ++ op ++ " (") = ",").
  { destruct Hop as [-> | ->]; reflexivity. }
  rewrite E1, E2, app_nil_r.
  rewrite concat_cons, concat_app, concat_cons.
  unfold comparison, tuple_body. now rewrite !append_assoc.
Qed.

Lemma enumerate_from_nth (A : Type) (xs : list A) (start i : nat) (x : A) :
  nth_error xs i = Some x ->
  nth_error (Py.enumerate_from start xs) i = Some (start + i, x).
Proof.
  revert start i. induction xs as [|y xs IH]; intros start [|i] H;
    simpl in *; try discriminate.
  - injection H as ->. now rewrite Nat.add_0_r.
  - rewrite (IH _ _ H). f_equal. f_equal. lia.
Qed.

Lemma enumerate_from_length (A : Type) (xs : list A) (start : nat) :
  length (Py.enumerate_from start xs) = length xs.
Proof.
  revert start. induction xs as [|y xs IH]; intros start; simpl; [|rewrite IH];
    reflexivity.
Qed.

Lemma Query_new_fresh :
  Query_new =
  inr {| clauses := [("ORDER BY", [])]; __things := []; __desc := false;
         __keyword := "WHERE" |}.
Proof. reflexivity. Qed.

(** Without keys, as on a fresh query, both tuples are empty and yield no
    line: what is added under the keyword is the [end] of [to_str] alone. *)
Lemma LIMIT_no_keys (ns : list string) :
  (q <- Query_new ;; LIMIT q ns true) =
  inr {| clauses := add (add (add [] "ORDER BY" []) "LIMIT" (map Str ns))
                        "WHERE" [Str ")"];
         __things := []; __desc := false; __keyword := "WHERE" |}.
Proof. reflexivity. Qed.


(** *** More on [add] *)

(** [self[keyword]], [None] standing for the [KeyError]. *)
Fixpoint get (self : BaseQuery) (keyword : string)
  : option (list (list string)) :=
  match self with
  | [] => None
  | (k, things) :: rest =>
      if String.eqb k keyword then Some things else get rest keyword
  end.

Definition fragments_of (self : BaseQuery) (keyword : string)
  : list (list string) :=
  match get self keyword with Some things => things | None => [] end.

Definition has_keyword (self : BaseQuery) (keyword : string) : bool :=
  match get self keyword with Some _ => true | None => false end.

Lemma extend_get (self : BaseQuery) (keyword : string) (new : list (list string)) :
  get (extend self keyword new) keyword =
  Some (fragments_of self keyword ++ new)%list.
Proof.
  unfold fragments_of.
  induction self as [|[k things] rest IH]; simpl.
  - now rewrite String.eqb_refl.
  - destruct (String.eqb k keyword) eqn:E; simpl; rewrite E; [reflexivity|exact IH].
Qed.

Lemma extend_get_other (self : BaseQuery) (keyword other : string)
      (new : list (list string)) :
  other <> keyword -> get (extend self keyword new) other = get self other.
Proof.
  intros Hne. induction self as [|[k things] rest IH]; simpl.
  - destruct (String.eqb keyword other) eqn:E; [|reflexivity].
    apply String.eqb_eq in E. congruence.
  - destruct (String.eqb k keyword) eqn:E; simpl.
    + apply String.eqb_eq in E. subst k.
      destruct (String.eqb keyword other) eqn:E2; [|reflexivity].
      apply String.eqb_eq in E2. congruence.
    + now rewrite IH.
Qed.

(** What [LIMIT] with a true [last] returns after
    [scrolling_window_order_by] with at least one key. *)
Lemma LIMIT_last (q : Query) (ks ns : list string) (d : bool) (kw : string) :
  ks <> [] -> recorded q ks d kw ->
  LIMIT q ns true =
  inr (add_clauses (add_clauses q "LIMIT" (map Str ns)) kw
         [Str (comparison (if d then "<" else ">")
                          (map _clean_up (map _clean_up ks))
                          (map _clean_up (labels (length ks))))]).
Proof.
  intros Hks (Ht & Hd & Hk). unfold LIMIT.
  cbn [negb add_clauses __desc __things __keyword clauses].
  rewrite Query_new_fresh. cbn [bind clauses].
  rewrite Ht, Hd, Hk, !length_map, !add_strs.
  rewrite comparison_to_str.
  - reflexivity.
  - destruct d; auto.
  - destruct ks; [congruence|discriminate].
  - destruct ks; [congruence|discriminate].
Qed.

(** C4, as the code has it: after
    [scrolling_window_order_by(k1, ..., kn, desc=d, keyword=kw)] with at
    least one key, [kw] being WHERE for a fresh query, [LIMIT] with a false
    [last] appends its arguments to the fragments of LIMIT and leaves the
    other keywords as they are; with a true [last] it appends, after them
    and to the fragments of [kw], the comparison of the tuple of the keys
    with the tuple of [:last_0], ..., [:last_{n-1}], with [<] when [d] is
    true and [>] otherwise, and leaves the keywords other than LIMIT and
    [kw] as they are; and [last_params] pairs the [i]-th value of the
    cursor with the name [last_i]. *)
Theorem LIMIT_after_cursor (self : Query) (ks : list string) (d : bool)
        (kw : string) :
  ks <> [] ->
  (exists q0, scrolling_window_order_by self ks d kw = inr q0 /\
              recorded q0 ks d kw) /\
  (exists q, Query_new = inr q /\ __keyword q = "WHERE") /\
  (forall q ns, exists q',
     LIMIT q ns false = inr q' /\
     get (clauses q') "LIMIT" =
       Some (fragments_of (clauses q) "LIMIT"
             ++ map (fun n => [_clean_up n]) ns)%list /\
     (forall other, other <> "LIMIT" ->
        get (clauses q') other = get (clauses q) other) /\
     __things q' = __things q /\ __desc q' = __desc q /\
     __keyword q' = __keyword q) /\
  (forall q ns, recorded q ks d kw ->
     exists q',
       LIMIT q ns true = inr q' /\
       get (clauses q') "LIMIT" =
         Some (fragments_of (clauses q) "LIMIT"
               ++ map (fun n => [_clean_up n]) ns
               ++ (if String.eqb kw "LIMIT"
                   then [[_clean_up
                            (comparison (if d then "<" else ">")
                               (map _clean_up (map _clean_up ks))
                               (map _clean_up (labels (length ks))))]]
                   else []))%list /\
       (kw <> "LIMIT" ->
        get (clauses q') kw =
          Some (fragments_of (clauses q) kw
                ++ [[_clean_up
                       (comparison (if d then "<" else ">")
                          (map _clean_up (map _clean_up ks))
                          (map _clean_up (labels (length ks))))]])%list) /\
       (forall other, other <> "LIMIT" -> other <> kw ->
          get (clauses q') other = get (clauses q) other) /\
       recorded q' ks d kw) /\
  (forall (A : Type) (cursor : list A),
     last_params (@None (list A)) = [] /\
     length (last_params (Some cursor)) = length cursor /\
     forall i t, nth_error cursor i = Some t ->
       nth_error (last_params (Some cursor)) i = Some ("last_" ++ str_of_nat i, t)).
Proof.
  intros Hks. split; [|split; [|split; [|split]]].
  - eexists. split; [reflexivity|]. now repeat split.
  - eexists. split; reflexivity.
  - intros q ns. eexists. split; [reflexivity|].
    cbn [add_clauses clauses __things __desc __keyword].
    rewrite add_strs, map_map. split; [apply extend_get|].
    split; [|auto]. intros other H. now apply extend_get_other.
  - intros q ns Hrec. eexists. split; [exact (@LIMIT_last q ks ns d kw Hks Hrec)|].
    cbn [add_clauses clauses __things __desc __keyword].
    change (add ?s ?k [Str ?x]) with (extend s k [[_clean_up x]]).
    rewrite add_strs, map_map.
    split; [|split; [|split]].
    + destruct (String.eqb kw "LIMIT") eqn:E.
      * apply String.eqb_eq in E. subst kw. rewrite extend_get.
        unfold fragments_of at 1. rewrite extend_get.
        now rewrite <- app_assoc.
      * rewrite extend_get_other, extend_get, app_nil_r; [reflexivity|].
        intros H. rewrite H, String.eqb_refl in E. discriminate.
    + intros Hkw. rewrite extend_get. unfold fragments_of.
      now rewrite extend_get_other.
    + intros other H1 H2. now rewrite !extend_get_other.
    + exact Hrec.
  - intros A cursor. split; [reflexivity|]. split.
    + unfold last_params. now rewrite length_map, enumerate_from_length.
    + intros i t H. unfold last_params.
      rewrite nth_error_map, (enumerate_from_nth _ 0 _ H). reflexivity.
Qed.

Lemma extend_keywords (self : BaseQuery) (keyword : string)
      (new : list (list string)) :
  map fst (extend self keyword new) =
  (map fst self ++ (if has_keyword self keyword then [] else [keyword]))%list.
Proof.
  unfold has_keyword. induction self as [|[k things] rest IH]; simpl; [reflexivity|].
  destruct (String.eqb k keyword) eqn:E; simpl.
  - now rewrite app_nil_r.
  - now rewrite IH.
Qed.

Lemma get_In (self : BaseQuery) (keyword : string) :
  get self keyword = None -> ~ In keyword (map fst self).
Proof.
  induction self as [|[k things] rest IH]; simpl; [tauto|].
  destruct (String.eqb k keyword) eqn:E; [discriminate|].
  intros H [Hk|Hk]; [|now apply IH].
  subst k. now rewrite String.eqb_refl in E.
Qed.

(** X9: [add] appends the cleaned-up fragments to those of the keyword, in
    the order given, and leaves every other keyword alone; a keyword that
    is new comes last, and no keyword ever occurs twice. *)
Theorem add_appends (self : BaseQuery) (keyword : string) (things : list QArg) :
  get (add self keyword things) keyword =
    Some (fragments_of self keyword
          ++ map (fun a => map _clean_up (as_tuple a)) things)%list /\
  (forall other, other <> keyword ->
     get (add self keyword things) other = get self other) /\
  map fst (add self keyword things) =
    (map fst self ++ (if has_keyword self keyword then [] else [keyword]))%list /\
  (NoDup (map fst self) -> NoDup (map fst (add self keyword things))).
Proof.
  unfold add. split; [apply extend_get|].
  split; [intros other H; now apply extend_get_other|].
  split; [apply extend_keywords|].
  intros Hnd. rewrite extend_keywords. unfold has_keyword.
  destruct (get self keyword) eqn:E; [now rewrite app_nil_r|].
  apply NoDup_app; [exact Hnd|repeat constructor; tauto|].
  intros x Hx [<-|[]]. revert Hx. now apply get_In.
Qed.

Lemma extend_extend (self : BaseQuery) (keyword : string)
      (new new' : list (list string)) :
  extend (extend self keyword new) keyword new' =
  extend self keyword (new ++ new')%list.
Proof.
  induction self as [|[k things] rest IH]; simpl.
  - now rewrite String.eqb_refl.
  - destruct (String.eqb k keyword) eqn:E; simpl; rewrite E.
    + now rewrite <- app_assoc.
    + now rewrite IH.
Qed.

(** X10: two calls of [add] with one keyword do what one call with all the
    fragments does. *)
Theorem add_add (self : BaseQuery) (keyword : string) (xs ys : list QArg) :
  add (add self keyword xs) keyword ys = add self keyword (xs ++ ys)%list.
Proof. unfold add. now rewrite extend_extend, map_app. Qed.

(** *** When rendering succeeds *)

(** A fragment that [_keyword_formats] has a format for: a string, or an
    alias and an expression under SELECT or WITH. *)
Definition renderable (keyword : string) (maybe_thing : list string) : bool :=
  match maybe_thing with
  | [_] => true
  | [_; _] => String.eqb keyword "SELECT" || String.eqb keyword "WITH"
  | _ => false
  end.

Definition all_renderable (p : string * list (list string)) : bool :=
  forallb (renderable (fst p)) (snd p).

Lemma format_thing_ok (keyword : string) (maybe_thing : list string) :
  renderable keyword maybe_thing = true <->
  exists line, format_thing keyword maybe_thing = inr line.
Proof.
  unfold renderable, format_thing.
  destruct maybe_thing as [|a [|b [|c rest]]].
  - split; [discriminate|intros [line H]; discriminate].
  - split; eauto.
  - destruct (String.eqb keyword "SELECT"); [split; eauto|].
    destruct (String.eqb keyword "WITH"); [split; eauto|].
    split; [discriminate|intros [line H]; discriminate].
  - split; [discriminate|intros [line H]; discriminate].
Qed.

Lemma lines_of_things_ok (keyword : string) (n : nat)
      (things : list (nat * list string)) :
  forallb (renderable keyword) (map snd things) = true <->
  exists ls, lines_of_things keyword n things = inr ls.
Proof.
  induction things as [|[i thing] things IH]; simpl.
  - split; eauto.
  - rewrite andb_true_iff, format_thing_ok, IH. unfold bind. split.
    + intros [[line ->] [ls ->]]. eauto.
    + intros [ls H]. destruct (format_thing keyword thing); [discriminate|].
      destruct (lines_of_things keyword n things); [discriminate|]. eauto.
Qed.

Lemma enumerate_from_snd (A : Type) (xs : list A) (start : nat) :
  map snd (Py.enumerate_from start xs) = xs.
Proof.
  revert start. induction xs as [|x xs IH]; intros start; simpl;
    [reflexivity|now rewrite IH].
Qed.

Lemma lines_of_pairs_ok (pairs : BaseQuery) :
  forallb all_renderable pairs = true <->
  exists ls, lines_of_pairs pairs = inr ls.
Proof.
  induction pairs as [|[k things] pairs IH].
  - simpl. split; eauto.
  - cbn [forallb]. rewrite andb_true_iff, IH.
    destruct things as [|thing things].
    + simpl. unfold all_renderable; simpl. tauto.
    + cbn [lines_of_pairs]. unfold all_renderable at 1. cbn [fst snd].
      rewrite <- (enumerate_from_snd (thing :: things) 1) at 1.
      rewrite (lines_of_things_ok k (length (thing :: things))). unfold bind. split.
      * intros [[block ->] [ls ->]]. eauto.
      * intros [ls H].
        destruct (lines_of_things k _ _); [discriminate|].
        destruct (lines_of_pairs pairs); [discriminate|]. eauto.
Qed.

(** X11: rendering raises exactly when some fragment has no format: it
    succeeds if and only if every fragment is a string, or an alias with an
    expression under SELECT or WITH. *)
Theorem to_str_succeeds_iff (self : BaseQuery) (end_ : string) :
  (exists out, to_str self end_ = inr out) <->
  forallb all_renderable self = true.
Proof.
  assert (H : forallb all_renderable self = true <->
              forallb all_renderable (sorted_pairs self) = true).
  { rewrite !forallb_forall. unfold sorted_pairs.
    split; intros Hall p Hp; apply Hall.
    - eapply Permutation_in; [apply Py.sorted_perm|exact Hp].
    - eapply Permutation_in; [apply Permutation_sym, Py.sorted_perm|exact Hp]. }
  rewrite H, lines_of_pairs_ok. unfold to_str, _lines, bind. split.
  - intros [out Hout]. destruct (lines_of_pairs _); [discriminate|]. eauto.
  - intros [ls ->]. eauto.
Qed.

(** X12: a builder that holds no fragment renders as [end] alone. *)
Theorem to_str_no_fragments (self : BaseQuery) (end_ : string) :
  Forall (fun p => snd p = []) self -> to_str self end_ = inr end_.
Proof.
  intros H. unfold to_str, _lines.
  assert (Hs : Forall (fun p : string * list (list string) => snd p = [])
                      (sorted_pairs self)) by now apply Py.sorted_Forall.
  assert (E : lines_of_pairs (sorted_pairs self) = inr []).
  { induction Hs as [|[k things] pairs Hk _ IH]; [reflexivity|].
    simpl in Hk. subst things. exact IH. }
  now rewrite E.
Qed.

(** *** The order of the calls *)

Lemma extend_comm (self : BaseQuery) (k1 k2 : string)
      (xs ys : list (list string)) :
  k1 <> k2 ->
  extend (extend self k1 xs) k2 ys = extend (extend self k2 ys) k1 xs \/
  exists pre : BaseQuery,
    extend (extend self k1 xs) k2 ys = (pre ++ [(k1, xs); (k2, ys)])%list /\
    extend (extend self k2 ys) k1 xs = (pre ++ [(k2, ys); (k1, xs)])%list.
Proof.
  intros Hne. induction self as [|[k things] rest IH].
  - right. exists []. simpl.
    replace (String.eqb k1 k2) with false
      by (symmetry; apply String.eqb_neq; congruence).
    replace (String.eqb k2 k1) with false
      by (symmetry; apply String.eqb_neq; congruence).
    now split.
  - cbn [extend].
    destruct (String.eqb k k1) eqn:E1, (String.eqb k k2) eqn:E2; cbn [extend];
      rewrite ?E1, ?E2.
    + apply String.eqb_eq in E1, E2. congruence.
    + now left.
    + now left.
    + destruct IH as [IH|(pre & H1 & H2)].
      * left. now rewrite IH.
      * right. exists ((k, things) :: pre). now rewrite H1, H2.
Qed.

Lemma key_same_eq (a b : key) :
  key_ltb a b = false -> key_ltb b a = false -> a = b.
Proof.
  destruct a, b; simpl; try discriminate; try reflexivity.
  rewrite !Nat.ltb_ge. intros. f_equal. lia.
Qed.

(** X13: the order in which two keywords of different precedence receive
    their fragments does not show in the rendered text. *)
Theorem to_str_order_independent (self : BaseQuery) (k1 k2 : string)
        (xs ys : list QArg) (end_ : string) :
  _keyword_key k1 <> _keyword_key k2 ->
  to_str (add (add self k1 xs) k2 ys) end_ =
  to_str (add (add self k2 ys) k1 xs) end_.
Proof.
  intros Hk. assert (Hne : k1 <> k2) by congruence.
  unfold to_str, _lines, add. f_equal. f_equal.
  destruct (extend_comm self
              (map (fun a => map _clean_up (as_tuple a)) xs)
              (map (fun a => map _clean_up (as_tuple a)) ys) Hne)
    as [->|(pre & -> & ->)]; [reflexivity|].
  unfold sorted_pairs. apply Py.sorted_determined.
  - apply key_ltb_asym.
  - apply key_le_trans.
  - intros x. rewrite !filter_app. f_equal. simpl.
    destruct (Py.same_key _ key_ltb x (k1, _)) eqn:A1; [|reflexivity].
    destruct (Py.same_key _ key_ltb x (k2, _)) eqn:A2; [|reflexivity].
    exfalso. apply Hk. unfold Py.same_key in A1, A2. simpl in A1, A2.
    apply andb_prop in A1, A2. destruct A1 as [A1 A1'], A2 as [A2 A2'].
    rewrite negb_true_iff in A1, A1', A2, A2'.
    rewrite <- (key_same_eq _ _ A1 A1'). now apply key_same_eq.
Qed.

(** *** [extract_last] *)

(** The exceptions of the lookups in [extract_last]. *)
Inductive lookup_error : Type :=
| KeyError (keyword : string)
| IndexError
| ValueError_not_in_list (x : string).

(** A list comprehension whose body may raise. *)
Fixpoint comprehension (X Y : Type) (f : X -> lookup_error + Y) (xs : list X)
  : lookup_error + list Y :=
  match xs with
  | [] => inr []
  | x :: xs' =>
      match f x with
      | inl e => inl e
      | inr y =>
          match comprehension f xs' with
          | inl e => inl e
          | inr ys => inr (y :: ys)
          end
      end
  end.

(** [t[0]] *)
Definition first (t : list string) : lookup_error + string :=
  match t with
  | [] => inl IndexError
  | x :: _ => inr x
  end.

(** [result[names.index(t)]] *)
Definition column (A : Type) (names : list string) (result : list A)
           (t : string) : lookup_error + A :=
  match index t names with
  | None => inl (ValueError_not_in_list t)
  | Some i =>
      match nth_error result i with
      | None => inl IndexError
      | Some x => inr x
      end
  end.

(** [extract_last(result)]: the tuple of the columns of the keys, or [None]
    when the tuple is empty. *)
Definition extract_last (A : Type) (self : Query) (result : list A)
  : lookup_error + option (list A) :=
  match get (clauses self) "SELECT" with
  | None => inl (KeyError "SELECT")
  | Some things =>
      match comprehension first things with
      | inl e => inl e
      | inr names =>
          match comprehension (column names result) (__things self) with
          | inl e => inl e
          | inr [] => inr None
          | inr (x :: xs) => inr (Some (x :: xs))
          end
      end
  end.

Lemma comprehension_first (things : list (list string)) :
  Forall (fun t => t <> []) things ->
  comprehension first things = inr (map (hd "") things).
Proof.
  induction 1 as [|t things Ht _ IH]; simpl; [reflexivity|].
  destruct t as [|x t]; [congruence|]. simpl. now rewrite IH.
Qed.

Lemma index_In (x : string) (xs : list string) :
  In x xs -> exists i, index x xs = Some i /\ i < length xs.
Proof.
  induction xs as [|y xs IH]; simpl; [tauto|].
  destruct (String.eqb y x) eqn:E.
  - intros _. exists 0. split; [reflexivity|lia].
  - intros [H|H]; [subst; now rewrite String.eqb_refl in E|].
    destruct (IH H) as (i & -> & Hi). exists (S i). split; [reflexivity|lia].
Qed.

Lemma index_nth (x : string) (xs : list string) (i : nat) :
  index x xs = Some i -> nth_error xs i = Some x.
Proof.
  revert i. induction xs as [|y xs IH]; intros i; simpl; [discriminate|].
  destruct (String.eqb y x) eqn:E.
  - intros [= <-]. apply String.eqb_eq in E. now subst.
  - destruct (index x xs); [|discriminate]. intros [= <-]. now apply IH.
Qed.

Lemma comprehension_column (A : Type) (names : list string) (result : list A)
      (ts : list string) :
  length names <= length result ->
  Forall (fun t => In t names) ts ->
  exists cols,
    comprehension (column names result) ts = inr cols /\
    Forall2 (fun t x => exists i, nth_error names i = Some t /\
                                  nth_error result i = Some x) ts cols.
Proof.
  intros Hlen. induction 1 as [|t ts Ht _ IH]; simpl.
  - exists []. split; [reflexivity|constructor].
  - destruct (index_In _ _ Ht) as (i & Hi & Hlt).
    destruct (nth_error result i) as [x|] eqn:Hx.
    + destruct IH as (cols & -> & Hcols). unfold column at 1. rewrite Hi, Hx.
      exists (x :: cols). split; [reflexivity|].
      constructor; [|exact Hcols]. exists i. split; [now apply index_nth|exact Hx].
    + apply nth_error_None in Hx. lia.
Qed.

(** X14: on a row that has a column for each fragment of SELECT,
    [extract_last] returns, for the keys of the ordering that are named by
    SELECT fragments, the columns of the row at the positions of these
    names, in the order of the keys; it returns [None] when there is no
    key. *)
Theorem extract_last_columns (A : Type) (self : Query) (result : list A)
        (things : list (list string)) :
  get (clauses self) "SELECT" = Some things ->
  Forall (fun t => t <> []) things ->
  length things <= length result ->
  Forall (fun t => In t (map (hd "") things)) (__things self) ->
  exists cols,
    extract_last self result =
      inr (match cols with [] => None | _ :: _ => Some cols end) /\
    Forall2 (fun t x => exists i, nth_error (map (hd "") things) i = Some t /\
                                  nth_error result i = Some x)
            (__things self) cols.
Proof.
  intros Hget Hne Hlen Hin. unfold extract_last.
  rewrite Hget, (comprehension_first Hne).
  destruct (@comprehension_column A (map (hd "") things) result (__things self))
    as (cols & -> & Hcols); [now rewrite length_map|exact Hin|].
  exists cols. split; [now destruct cols|exact Hcols].
Qed.

(** X15: the errors of [extract_last]: without a SELECT clause it raises
    [KeyError]; with one, a key that no SELECT fragment names raises
    [ValueError]. *)
Theorem extract_last_errors (A : Type) (self : Query) (result : list A) :
  (get (clauses self) "SELECT" = None ->
   extract_last self result = inl (KeyError "SELECT")) /\
  (forall things t ts,
     get (clauses self) "SELECT" = Some things ->
     Forall (fun t => t <> []) things ->
     __things self = t :: ts ->
     ~ In t (map (hd "") things) ->
     extract_last self result = inl (ValueError_not_in_list t)).
Proof.
  split.
  - intros H. unfold extract_last. now rewrite H.
  - intros things t ts Hget Hne Hts Hin. unfold extract_last.
    rewrite Hget, (comprehension_first Hne), Hts. simpl. unfold column at 1.
    destruct (index t (map (hd "") things)) as [i|] eqn:E; [|reflexivity].
    apply index_nth in E. apply nth_error_In in E. contradiction.
Qed.

(** *** Calling [scrolling_window_order_by] again *)

(** X16: [scrolling_window_order_by] never raises; the keys it records are
    those of the last call, while the ORDER BY clause keeps the terms of
    every call. *)
Theorem scrolling_window_order_by_twice (self : Query)
        (ks ks' : list string) (d d' : bool) (kw kw' : string) :
  exists q1 q2,
    scrolling_window_order_by self ks d kw = inr q1 /\
    scrolling_window_order_by q1 ks' d' kw' = inr q2 /\
    __things q2 = map _clean_up ks' /\ __desc q2 = d' /\ __keyword q2 = kw' /\
    get (clauses q2) "ORDER BY" =
    Some (fragments_of (clauses self) "ORDER BY"
          ++ map (fun k => [_clean_up (k ++ " " ++ (if d then "DESC" else "ASC"))]) ks
          ++ map (fun k => [_clean_up (k ++ " " ++ (if d' then "DESC" else "ASC"))]) ks')%list.
Proof.
  eexists. eexists. split; [reflexivity|]. split; [reflexivity|].
  cbn [__things __desc __keyword clauses]. repeat (split; [reflexivity|]).
  change (replace "_" " " "ORDER_BY") with "ORDER BY".
  rewrite add_add. unfold add. rewrite extend_get.
  now rewrite map_app, !map_map.
Qed.

End Builder.

(** An instance of the library functions for fragments of one line without
    blanks at either end: [dedent], [strip] and [rstrip] leave such a text as
    it is and [indent] puts the prefix in front of it. *)
Definition one_line : Textwrap :=
  {| dedent := fun x => x; indent := fun text prefix => prefix ++ text;
     strip := fun x => x; rstrip := fun x => x |}.

#[local] Existing Instance one_line.

Lemma lines_keyword_order_witness :
  rendered_keywords
    [("LIMIT", [["1"]]); ("zzz", [["z"]]); ("LEFT JOIN", [["t"]]);
     ("SELECT", [["a"]]); ("WHERE", []); ("yyy", [["y"]]);
     ("INNER JOIN", [["u"]])] =
  ["SELECT"; "LEFT JOIN"; "INNER JOIN"; "LIMIT"; "zzz"; "yyy"] /\
  StronglySorted (fun a b => key_ltb (_keyword_key b) (_keyword_key a) = false)
    ["SELECT"; "LEFT JOIN"; "INNER JOIN"; "LIMIT"; "zzz"; "yyy"].
Proof.
  split; [reflexivity|].
  refine (proj1 (proj2 (proj2 (@lines_keyword_order one_line
    [("LIMIT", [["1"]]); ("zzz", [["z"]]); ("LEFT JOIN", [["t"]]);
     ("SELECT", [["a"]]); ("WHERE", []); ("yyy", [["y"]]);
     ("INNER JOIN", [["u"]])] _ eq_refl)))).
Defined.

(** C3 as stated fails twice: a keyword of the dictionary that holds no
    fragment (as after [add('WHERE')]) yields no line, and a keyword that
    starts with INSERT and contains JOIN sorts at JOIN, after SELECT. *)
Lemma keyword_order_counterexample :
  @_lines one_line [("WHERE", [])] = inr [] /\
  startswith "INSERT JOIN" "INSERT" = true /\
  _keyword_key "INSERT JOIN" = Index 8 /\
  _keyword_key "INSERT" = Index 1 /\
  rendered_keywords [("INSERT JOIN", [["t"]]); ("SELECT", [["a"]])] =
  ["SELECT"; "INSERT JOIN"].
Proof. repeat split. Qed.

Lemma getattr_registers_clause_witness :
  (exists f, @obj_getattr one_line "BaseQuery" 0 "GROUP_BY" = inr f /\
     forall things h,
       f things h = obj_add 0 "GROUP BY" things h /\ fst (f things h) = 0) /\
  @obj_getattr one_line "BaseQuery" 0 "__deepcopy__" =
  inl (AttributeError "BaseQuery" "__deepcopy__").
Proof.
  destruct (@getattr_registers_clause one_line "BaseQuery" 0 "GROUP_BY")
    as (H1 & _).
  destruct (@getattr_registers_clause one_line "BaseQuery" 0 "__deepcopy__")
    as (_ & H2 & _ & H3).
  split; [exact (H1 eq_refl)|].
  apply H2, H3. left. reflexivity.
Defined.

(** C10 as stated fails: ["_"] is made of uppercase characters and
    underscores only, and looking it up raises; ["A1"] is not, and looking
    it up registers a clause. *)
Lemma getattr_counterexample :
  forallb upper_or_underscore (list_ascii_of_string "_") = true /\
  @obj_getattr one_line "BaseQuery" 0 "_" = inl (AttributeError "BaseQuery" "_") /\
  forallb upper_or_underscore (list_ascii_of_string "A1") = false /\
  (forall h, option_map (fun f => snd (f [Str "x"] h) 0)
               (match @obj_getattr one_line "BaseQuery" 0 "A1" with
                | inr f => Some f | inl _ => None end) =
             Some (@add one_line (h 0) "A1" [Str "x"])).
Proof. repeat split. Qed.

Lemma LIMIT_after_cursor_witness :
  let q := {| clauses := [("ORDER BY", [["feed DESC"]; ["id DESC"]])];
              __things := ["feed"; "id"]; __desc := true;
              __keyword := "HAVING" |} in
  exists q',
    LIMIT q ["10"] true = inr q' /\
    get (clauses q') "LIMIT" = Some [["10"]] /\
    get (clauses q') "HAVING" =
      Some [[comparison "<" ["feed"; "id"] [":last_0"; ":last_1"]]] /\
    get (clauses q') "ORDER BY" = Some [["feed DESC"]; ["id DESC"]].
Proof.
  assert (H : ["feed"; "id"] <> []) by discriminate.
  destruct (proj1 (proj2 (proj2 (proj2
           (@LIMIT_after_cursor one_line
              {| clauses := []; __things := []; __desc := false; __keyword := "" |}
              ["feed"; "id"] true "HAVING" H))))
           {| clauses := [("ORDER BY", [["feed DESC"]; ["id DESC"]])];
              __things := ["feed"; "id"]; __desc := true;
              __keyword := "HAVING" |}
           ["10"] (conj eq_refl (conj eq_refl eq_refl)))
    as (q' & H1 & H2 & H3 & H4 & _).
  exists q'. split; [exact H1|]. split; [exact H2|].
  split; [apply H3; discriminate|apply H4; discriminate].
Defined.

(** C4 as stated fails without keys, as on every fresh query, on which
    [__init__] has called [scrolling_window_order_by()]: both tuples are
    empty and yield no line, so what [LIMIT] adds under WHERE is the [end]
    of [to_str] alone, not a comparison. *)
Lemma LIMIT_counterexample :
  exists q q',
    @Query_new one_line = inr q /\
    @recorded one_line q [] false "WHERE" /\
    @LIMIT one_line q ["10"] true = inr q' /\
    get (clauses q') "LIMIT" = Some [["10"]] /\
    get (clauses q') "WHERE" = Some [[")"]] /\
    ")" <> @comparison one_line ">" [] [].
Proof.
  eexists. eexists. split; [reflexivity|].
  split; [now repeat split|]. split; [reflexivity|].
  split; [reflexivity|]. split; [reflexivity|]. discriminate.
Qed.

Lemma add_appends_witness :
  NoDup (map fst (add [("SELECT", [["a"]]); ("FROM", [["t"]])] "WHERE" [Str "x"])).
Proof.
  apply (@add_appends one_line [("SELECT", [["a"]]); ("FROM", [["t"]])]).
  repeat constructor; simpl; intuition discriminate.
Defined.

Lemma to_str_succeeds_iff_witness :
  forallb all_renderable [("SELECT", [["a"; "b"]]); ("FROM", [["t"]])] = true.
Proof.
  apply (proj1 (@to_str_succeeds_iff one_line
                  [("SELECT", [["a"; "b"]]); ("FROM", [["t"]])] ";")).
  eexists. reflexivity.
Defined.

Lemma to_str_no_fragments_witness :
  to_str [("ORDER BY", []); ("WHERE", [])] ";" = inr ";".
Proof. apply to_str_no_fragments. repeat constructor. Defined.

Lemma to_str_order_independent_witness :
  to_str (add (add [] "WHERE" [Str "a = 1"]) "SELECT" [Str "a"]) ";" =
  to_str (add (add [] "SELECT" [Str "a"]) "WHERE" [Str "a = 1"]) ";".
Proof. apply to_str_order_independent. discriminate. Defined.

Lemma extract_last_columns_witness :
  extract_last
    {| clauses := [("SELECT", [["feed"; "entries.feed"]; ["id"; "entries.id"];
                               ["entries.title"]])];
       __things := ["id"; "feed"]; __desc := false; __keyword := "WHERE" |}
    ["url"; "1"; "title"] = inr (Some ["1"; "url"]).
Proof.
  assert (H1 : Forall (fun t : list string => t <> [])
                 [["feed"; "entries.feed"]; ["id"; "entries.id"];
                  ["entries.title"]]).
  { repeat (constructor; [discriminate|]). constructor. }
  assert (H2 : length [["feed"; "entries.feed"]; ["id"; "entries.id"];
                       ["entries.title"]] <= length ["url"; "1"; "title"]).
  { simpl. lia. }
  assert (H3 : Forall (fun t => In t (map (hd "")
                 [["feed"; "entries.feed"]; ["id"; "entries.id"];
                  ["entries.title"]])) ["id"; "feed"]).
  { repeat (constructor; [simpl; auto|]). constructor. }
  destruct (@extract_last_columns string
    {| clauses := [("SELECT", [["feed"; "entries.feed"]; ["id"; "entries.id"];
                               ["entries.title"]])];
       __things := ["id"; "feed"]; __desc := false; __keyword := "WHERE" |}
    ["url"; "1"; "title"]
    [["feed"; "entries.feed"]; ["id"; "entries.id"]; ["entries.title"]]
    eq_refl H1 H2 H3) as (cols & H & _).
  rewrite H. vm_compute in H. symmetry. exact H.
Defined.

Lemma extract_last_errors_witness :
  extract_last
    {| clauses := [("SELECT", [["feed"]])];
       __things := ["id"]; __desc := false; __keyword := "WHERE" |}
    ["url"] = inl (ValueError_not_in_list "id").
Proof.
  apply (proj2 (@extract_last_errors string
    {| clauses := [("SELECT", [["feed"]])];
       __things := ["id"]; __desc := false; __keyword := "WHERE" |}
    ["url"]) [["feed"]] "id" []).
  - reflexivity.
  - repeat (constructor; [discriminate|]). constructor.
  - reflexivity.
  - simpl. intuition discriminate.
Defined.

End Sql.

(** ** [jscontrols.py]: the dispatch of form and JSON actions *)

Module JsControls.

Local Open Scope string_scope.

(** *** APIError *)

(** The [category] argument of [APIError]: absent, a tuple, or anything
    else (a string). *)
Inductive category_arg : Type :=
| NoCategory
| TupleCategory (cs : list string)
| OtherCategory (c : string).

(** An [APIError] after [__init__]: what is not a tuple has been wrapped in
    one. *)
Record APIError : Type := {
  message : string;
  category : option (list string)
}.

Definition APIError_init (message : string) (category : category_arg) : APIError :=
  {| message := message;
     category := match category with
                 | NoCategory => None
                 | TupleCategory cs => Some cs
                 | OtherCategory c => Some [c]
                 end |}.

(** *** APIThing *)

(** [request.form], or the [MultiDict] made of the JSON body: [get] gives
    the first value of a key. *)
Definition MultiDict : Type := list (string * string).

Fixpoint get (d : MultiDict) (k : string) : option string :=
  match d with
  | [] => None
  | (k', x) :: d' => if String.eqb k' k then Some x else get d' k
  end.

(** What a registered function does with the form: it returns a value,
    raises [APIError], or raises the error of a key its form lacks. *)
Inductive result : Type :=
| Return (rv : string)
| RaiseAPIError (e : APIError)
| RaiseBadRequestKeyError (k : string).

(** A registered function, with its entry of [self.really]. *)
Record action : Type := {
  func : MultiDict -> result;
  really : bool
}.

(** [self.actions], with [self.really[func]] next to each function. *)
Definition APIThing : Type := list (string * action).

Fixpoint lookup (self : APIThing) (name : string) : option action :=
  match self with
  | [] => None
  | (k, a) :: rest => if String.eqb k name then Some a else lookup rest name
  end.

(** A [dict]: [d.get(k)] and [d[k] = x]. *)
Section Dict.
Variables (K V : Type) (eqb : K -> K -> bool).

Fixpoint dict_get (d : list (K * V)) (k : K) : option V :=
  match d with
  | [] => None
  | (k', x) :: rest => if eqb k' k then Some x else dict_get rest k
  end.

Fixpoint dict_set (d : list (K * V)) (k : K) (x : V) : list (K * V) :=
  match d with
  | [] => [(k, x)]
  | (k', x') :: rest =>
      if eqb k' k then (k', x) :: rest else (k', x') :: dict_set rest k x
  end.
End Dict.

(** The two dictionaries of an [APIThing]: [self.actions], from the name
    of an action to its function, and [self.really], from a function to
    its flag.  A function object is known by its identity, a number here;
    [self.really] is keyed by it, not by the name of the action. *)
Record Registry : Type := {
  actions : list (string * nat);
  really_dict : list (nat * bool)
}.

Definition empty : Registry := {| actions := []; really_dict := [] |}.

(** [self(func, really=really)], for the function object [f] whose
    [__name__] is [name] at the time of the call: [register]. *)
Definition register (self : Registry) (name : string) (f : nat)
           (really_ : bool) : Registry :=
  {| actions := dict_set String.eqb (actions self) (Sql.replace "_" "-" name) f;
     really_dict := dict_set Nat.eqb (really_dict self) f really_ |}.

(** [self.actions.get(name)] and [self.really[f]]. *)
Definition action_of (self : Registry) (name : string) : option nat :=
  dict_get String.eqb (actions self) name.

Definition flag_of (self : Registry) (f : nat) : option bool :=
  dict_get Nat.eqb (really_dict self) f.

(** What [dispatch] finds for each action: its function, whose code is
    [code f], and the flag recorded for that function; [register] records
    one for every function it stores. *)
Definition table (code : nat -> MultiDict -> result) (self : Registry) : APIThing :=
  map (fun p => (fst p, {| func := code (snd p);
                           really := match flag_of self (snd p) with
                                     | Some b => b
                                     | None => false
                                     end |}))
      (actions self).

(** What a view returns or raises. *)
Inductive response : Type :=
| Plain (body : string) (status : nat)
| BadRequestKeyError (k : string)
| RedirectToReferrer
| Redirect (location : string)
| Json (ok : bool) (value : string).

(** The category of a flashed message: the default, or a tuple. *)
Inductive flash_category : Type :=
| DefaultCategory
| Categories (cs : list string).

(** The outcome of a dispatch: the response, the messages flashed and the
    actions whose function was called. *)
Record outcome : Type := {
  resp : response;
  flashed : list (string * flash_category);
  called : list string
}.

Definition finish (r : response) : outcome :=
  {| resp := r; flashed := []; called := [] |}.

Section Dispatch.
(** [is_safe_url] of [reader.app], which is not among the sources. *)
Variable is_safe_url : string -> bool.
Variable self : APIThing.

(** The value that confirms an action: [really-<action>] when the form has
    it, [really] otherwise. *)
Definition confirmation (form : MultiDict) (action_ : string) : option string :=
  match get form ("really-" ++ action_) with
  | Some x => Some x
  | None => get form "really"
  end.

Definition is_really (x : option string) : bool :=
  match x with Some y => String.eqb y "really" | None => false end.

Definition dispatch_form (form : MultiDict) : outcome :=
  match get form "action" with
  | None => finish (BadRequestKeyError "action")
  | Some action_ =>
      match lookup self action_ with
      | None => finish (Plain "unknown action" 400)
      | Some a =>
          match (match get form ("next-" ++ action_) with
                 | Some n => Some n
                 | None => get form "next"
                 end) with
          | None => finish (BadRequestKeyError "next")
          | Some next =>
              if negb (is_safe_url next) then finish (Plain "bad next" 400)
              else if really a && negb (is_really (confirmation form action_)) then
                {| resp := RedirectToReferrer;
                   flashed :=
                     [(action_ ++ ": really not checked",
                       Categories (action_ :: match get form "target" with
                                              | Some target => [target]
                                              | None => []
                                              end))];
                   called := [] |}
              else
                match func a form with
                | RaiseBadRequestKeyError k =>
                    {| resp := BadRequestKeyError k; flashed := [];
                       called := [action_] |}
                | Return rv =>
                    {| resp := Redirect next;
                       flashed := [(rv, DefaultCategory)];
                       called := [action_] |}
                | RaiseAPIError e =>
                    {| resp := RedirectToReferrer;
                       flashed :=
                         [(action_ ++ ": " ++ message e,
                           Categories (action_ :: match category e with
                                                  | Some cs => cs
                                                  | None => []
                                                  end))];
                       called := [action_] |}
                end
          end
      end
  end.

Definition dispatch_json (data : MultiDict) : outcome :=
  match get data "action" with
  | None => finish (BadRequestKeyError "action")
  | Some action_ =>
      match lookup self action_ with
      | None => finish (Plain "unknown action" 400)
      | Some a =>
          match func a data with
          | RaiseBadRequestKeyError k =>
              {| resp := BadRequestKeyError k; flashed := [];
                 called := [action_] |}
          | Return rv =>
              {| resp := Json true rv; flashed := []; called := [action_] |}
          | RaiseAPIError e =>
              {| resp := Json false (message e); flashed := [];
                 called := [action_] |}
          end
      end
  end.

(** [dispatch], on the mimetype of the request and its form or JSON
    body. *)
Definition dispatch (mimetype : string) (body : MultiDict) : outcome :=
  if String.eqb mimetype "application/x-www-form-urlencoded" then dispatch_form body
  else if String.eqb mimetype "application/json" then dispatch_json body
  else finish (Plain "bad content type" 400).

(** X19: [dispatch_form] calls at most the function of the action named by
    the form, and only when that action is registered, the address to go
    to next is safe and, for an action registered with [really], the form
    confirms it; when it calls no function the messages it flashes, if any,
    say that the confirmation is missing. *)
Theorem dispatch_form_guards (form : MultiDict) :
  (called (dispatch_form form) = [] \/
   exists action_ a next,
     called (dispatch_form form) = [action_] /\
     get form "action" = Some action_ /\ lookup self action_ = Some a /\
     (get form ("next-" ++ action_) = Some next \/
      get form ("next-" ++ action_) = None /\ get form "next" = Some next) /\
     is_safe_url next = true /\
     (really a = true -> confirmation form action_ = Some "really")) /\
  (called (dispatch_form form) = [] ->
   flashed (dispatch_form form) = [] \/
   exists action_ cs,
     flashed (dispatch_form form) =
       [(action_ ++ ": really not checked", Categories (action_ :: cs))] /\
     resp (dispatch_form form) = RedirectToReferrer).
Proof.
  unfold dispatch_form.
  destruct (get form "action") as [action_|] eqn:Ha; [|simpl; auto].
  destruct (lookup self action_) as [a|] eqn:Hl; [|simpl; auto].
  destruct (match get form ("next-" ++ action_) with
            | Some n => Some n | None => get form "next" end) as [next|] eqn:Hn;
    [|simpl; auto].
  destruct (is_safe_url next) eqn:Hs; [|simpl; auto]. cbn [negb].
  destruct (really a && negb (is_really (confirmation form action_))) eqn:Hr.
  - simpl. split; [now left|]. intros _. right. eauto.
  - assert (Hguard : exists next', 
              (get form ("next-" ++ action_) = Some next' \/
               get form ("next-" ++ action_) = None /\ get form "next" = Some next')
              /\ next' = next).
    { destruct (get form ("next-" ++ action_)) as [n|].
      - injection Hn as ->. exists next. split; [now left|reflexivity].
      - exists next. split; [now right|reflexivity]. }
    destruct Hguard as (next' & Hnext & ->).
    assert (Hc : really a = true -> confirmation form action_ = Some "really").
    { intros Hre. rewrite Hre in Hr. simpl in Hr. apply negb_false_iff in Hr.
      unfold is_really in Hr. destruct (confirmation form action_) as [y|];
        [|discriminate].
      apply String.eqb_eq in Hr. now subst. }
    destruct (func a form) as [rv|e|k]; simpl; (split; [|discriminate]);
      right; exists action_, a, next; auto 10.
Qed.

(** X20: [dispatch_json] asks for no confirmation: whenever the action
    named by the body is registered its function is called, once, with
    [really] or without, and the response is its value, or the message of
    its [APIError]; nothing is flashed. *)
Theorem dispatch_json_calls (data : MultiDict) (action_ : string) (a : action) :
  get data "action" = Some action_ ->
  lookup self action_ = Some a ->
  called (dispatch_json data) = [action_] /\
  flashed (dispatch_json data) = [] /\
  resp (dispatch_json data) =
    match func a data with
    | Return rv => Json true rv
    | RaiseAPIError e => Json false (message e)
    | RaiseBadRequestKeyError k => BadRequestKeyError k
    end.
Proof.
  intros Ha Hl. unfold dispatch_json. rewrite Ha, Hl.
  destruct (func a data); now simpl.
Qed.
End Dispatch.

Section DictFacts.
Variables (K V : Type) (eqb : K -> K -> bool).
Hypothesis eqb_eq : forall a b, eqb a b = true <-> a = b.

Lemma dict_get_set (d : list (K * V)) (k : K) (x : V) :
  dict_get eqb (dict_set eqb d k x) k = Some x.
Proof.
  assert (R : eqb k k = true) by now apply eqb_eq.
  induction d as [|[k' x'] rest IH]; simpl.
  - now rewrite R.
  - destruct (eqb k' k) eqn:E; simpl; rewrite E; [reflexivity|exact IH].
Qed.

Lemma dict_get_set_other (d : list (K * V)) (k other : K) (x : V) :
  other <> k -> dict_get eqb (dict_set eqb d k x) other = dict_get eqb d other.
Proof.
  intros Hne. induction d as [|[k' x'] rest IH]; simpl.
  - destruct (eqb k other) eqn:E; [|reflexivity].
    apply eqb_eq in E. congruence.
  - destruct (eqb k' k) eqn:E; simpl.
    + apply eqb_eq in E. subst k'.
      destruct (eqb k other) eqn:E2; [|reflexivity].
      apply eqb_eq in E2. congruence.
    + now rewrite IH.
Qed.
End DictFacts.

Lemma lookup_table (code : nat -> MultiDict -> result) (self : Registry)
      (name : string) :
  lookup (table code self) name =
  option_map (fun f => {| func := code f;
                          really := match flag_of self f with
                                    | Some b => b
                                    | None => false
                                    end |})
             (action_of self name).
Proof.
  unfold table, action_of. induction (actions self) as [|[k f] rest IH]; simpl.
  - reflexivity.
  - destruct (String.eqb k name); [reflexivity|exact IH].
Qed.

(** X21: [register] stores the function under its name with dashes for
    underscores, whatever was there before, and records the flag for the
    function itself: the other names keep their functions and the other
    functions their flags, but an action stored earlier for the same
    function object is dispatched with the new flag. *)
Theorem register_lookup (code : nat -> MultiDict -> result) (self : Registry)
        (name : string) (f : nat) (really_ : bool) :
  action_of (register self name f really_) (Sql.replace "_" "-" name) = Some f /\
  flag_of (register self name f really_) f = Some really_ /\
  (forall other, other <> Sql.replace "_" "-" name ->
     action_of (register self name f really_) other = action_of self other) /\
  (forall g, g <> f ->
     flag_of (register self name f really_) g = flag_of self g) /\
  lookup (table code (register self name f really_)) (Sql.replace "_" "-" name) =
    Some {| func := code f; really := really_ |} /\
  (forall other, other <> Sql.replace "_" "-" name ->
     action_of self other = Some f ->
     lookup (table code (register self name f really_)) other =
     Some {| func := code f; really := really_ |}) /\
  (forall other g, other <> Sql.replace "_" "-" name -> g <> f ->
     action_of self other = Some g ->
     lookup (table code (register self name f really_)) other =
     lookup (table code self) other).
Proof.
  assert (A1 : action_of (register self name f really_) (Sql.replace "_" "-" name)
               = Some f).
  { apply dict_get_set, String.eqb_eq. }
  assert (A2 : flag_of (register self name f really_) f = Some really_).
  { apply dict_get_set, Nat.eqb_eq. }
  assert (A3 : forall other, other <> Sql.replace "_" "-" name ->
             action_of (register self name f really_) other = action_of self other).
  { intros other H. apply dict_get_set_other; [apply String.eqb_eq|exact H]. }
  assert (A4 : forall g, g <> f ->
             flag_of (register self name f really_) g = flag_of self g).
  { intros g H. apply dict_get_set_other; [apply Nat.eqb_eq|exact H]. }
  repeat split; try assumption.
  - now rewrite lookup_table, A1; simpl; rewrite A2.
  - intros other H E. rewrite lookup_table, A3, E by assumption.
    simpl. now rewrite A2.
  - intros other g H Hg E. rewrite !lookup_table, A3, E by assumption.
    simpl. now rewrite A4.
Qed.

(** The functions registered at the end of [jscontrols.py]. *)
Definition simple (data : MultiDict) : result := Return "simple".

Definition confirm (data : MultiDict) : result := Return "confirm".

Definition text (data : MultiDict) : result :=
  match get data "text" with
  | None => RaiseBadRequestKeyError "text"
  | Some x =>
      if Sql.startswith x "err"
      then RaiseAPIError (APIError_init x (OtherCategory "category"))
      else Return ("text: " ++ x)
  end.

(** The function objects of the module, by identity. *)
Definition code_ (f : nat) : MultiDict -> result :=
  match f with
  | 0 => simple
  | 1 => confirm
  | _ => text
  end.

Definition form_ : APIThing :=
  table code_
    (register (register (register empty "simple" 0 false) "confirm" 1 true)
              "text" 2 false).

Lemma register_lookup_witness :
  let self := register (register empty "do_it" 0 false) "do-it-now" 0 true in
  action_of self "do-it" = Some 0 /\ action_of self "do-it-now" = Some 0 /\
  lookup (table code_ self) "do-it" = Some {| func := simple; really := true |}.
Proof.
  split; [reflexivity|]. split; [reflexivity|].
  apply (proj1 (proj2 (proj2 (proj2 (proj2 (proj2
           (register_lookup code_ (register empty "do_it" 0 false)
                            "do-it-now" 0 true))))))).
  - discriminate.
  - reflexivity.
Defined.

Lemma dispatch_json_calls_witness :
  called (dispatch_json form_ [("action", "confirm")]) = ["confirm"] /\
  flashed (dispatch_json form_ [("action", "confirm")]) = [] /\
  resp (dispatch_json form_ [("action", "confirm")]) = Json true "confirm".
Proof.
  exact (@dispatch_json_calls form_ [("action", "confirm")] "confirm"
           {| func := confirm; really := true |} eq_refl eq_refl).
Defined.

Lemma dispatch_form_guards_witness :
  flashed (dispatch_form (fun _ => true) form_
             [("action", "confirm"); ("next", "/")]) =
  [("confirm: really not checked", Categories ["confirm"])].
Proof.
  destruct (proj2 (@dispatch_form_guards (fun _ => true) form_
                     [("action", "confirm"); ("next", "/")]) eq_refl)
    as [H|(action_ & cs & H & _)].
  - discriminate H.
  - reflexivity.
Defined.

End JsControls.

(** ** The schema migration engine

    [reader/_sqlite_utils.py] is not among the sources; the engine is
    modelled from section 4.2 of the specification and from
    [tests/test_sqlite_utils.py]. *)

Module Migration.

Section Engine.

(** Modelled from the spec: the store of [_sqlite_utils.py], which is
    missing.  [Schema] is what the tables of a store hold and [E] the
    errors that [creator] and the steps raise. *)
Variables (Schema E : Type).

(** Modelled from the spec: the content of a store that has tables, with
    the two fields of the metadata header, each of which may be absent. *)
Record db : Type := {
  schema : Schema;
  version : option nat;
  app_id : option Z
}.

(** Modelled from the spec: a store has no tables (UNINITIALIZED) or has
    some. *)
Inductive store : Type :=
| Uninitialized
| Initialized (d : db).

(** Modelled from the spec: the errors of the framework (section 7). *)
Inductive framework_error : Type :=
| RequirementError (failed : list string)
| IdError
| DBError
| SchemaVersionError.

(** Modelled from the spec: how [migrate] ends.  An error of [creator] or
    of a step is carried as it was raised. *)
Inductive outcome : Type :=
| Done
| Refused (e : framework_error)
| Raised (e : E).

(** The functions [migrate] invokes, in order. *)
Inductive call : Type :=
| Creator
| Step (v : nat).

(** Modelled from the spec: the arguments of
    [migrate(creator, target_version, step_map, expected_id)] and the names
    of the requirement checks that fail on the engine. *)
Variable failed_checks : list string.
Variable creator : unit -> E + Schema.
Variable target_version : nat.
Variable step_map : nat -> option (db -> E + db).
Variable expected_id : Z.

Definition id_mismatch (d : db) : bool :=
  match app_id d with
  | Some i => negb (i =? expected_id)%Z
  | None => false
  end.

Definition set_version (d : db) (v : nat) : db :=
  {| schema := schema d; version := Some v; app_id := app_id d |}.

Definition set_id_if_absent (d : db) : db :=
  match app_id d with
  | Some _ => d
  | None => {| schema := schema d; version := version d;
               app_id := Some expected_id |}
  end.

Definition has_step (v : nat) : bool :=
  match step_map v with Some _ => true | None => false end.

(** Modelled from the spec: the steps from version [v] on, [n] of them
    left.  Each step runs in a transaction of its own: when it raises, or
    when the identity no longer matches after it, the store is as before
    the step; after a step that succeeds the incremented version is
    persisted.  When the target is reached an absent identity is set. *)
Fixpoint run_steps (n v : nat) (d : db) (trace : list call)
  : outcome * store * list call :=
  match n with
  | O => (Done, Initialized (set_id_if_absent d), trace)
  | S n' =>
      match step_map v with
      | None => (Refused SchemaVersionError, Initialized d, trace)
      | Some step =>
          match step d with
          | inl e => (Raised e, Initialized d, trace ++ [Step v])
          | inr d' =>
              if id_mismatch d' then
                (Refused IdError, Initialized d, trace ++ [Step v])
              else run_steps n' (S v) (set_version d' (S v)) (trace ++ [Step v])
          end
      end
  end.

(** Modelled from the spec: [migrate] of [_sqlite_utils.py], steps 1 to 4
    of section 4.2.  It returns how it ended, the store it leaves and the
    functions it invoked. *)
Definition migrate (s : store) : outcome * store * list call :=
  match failed_checks with
  | _ :: _ => (Refused (RequirementError failed_checks), s, [])
  | [] =>
      match s with
      | Uninitialized =>
          match creator tt with
          | inl e => (Raised e, Uninitialized, [Creator])
          | inr sch =>
              (Done,
               Initialized {| schema := sch; version := Some target_version;
                              app_id := Some expected_id |},
               [Creator])
          end
      | Initialized d =>
          if id_mismatch d then (Refused IdError, s, [])
          else match version d with
               | None => (Refused DBError, s, [])
               | Some v =>
                   if target_version <? v then (Refused SchemaVersionError, s, [])
                   else if v =? target_version then (Done, s, [])
                   else if forallb has_step (seq v (target_version - v))
                        then run_steps (target_version - v) v d []
                        else (Refused SchemaVersionError, s, [])
               end
      end
  end.

(** *** Facts about the steps *)

Lemma set_id_if_absent_ok (d : db) :
  id_mismatch d = false ->
  version (set_id_if_absent d) = version d /\
  id_mismatch (set_id_if_absent d) = false.
Proof.
  unfold set_id_if_absent, id_mismatch. destruct (app_id d) eqn:Hid; simpl.
  - rewrite Hid. auto.
  - rewrite Z.eqb_refl. auto.
Qed.

(** The calls of [run_steps] are steps of consecutive versions. *)
Lemma run_steps_trace (n v : nat) (d : db) (tr : list call)
      (o : outcome) (s' : store) (tr' : list call) :
  run_steps n v d tr = (o, s', tr') ->
  exists m, m <= n /\ tr' = tr ++ map Step (seq v m).
Proof.
  revert v d tr. induction n as [|n IH]; intros v d tr H; simpl in H.
  - injection H as _ _ <-. exists 0. simpl. now rewrite app_nil_r.
  - destruct (step_map v) as [step|].
    + destruct (step d) as [e|d'].
      * injection H as _ _ <-. exists 1. split; [lia|reflexivity].
      * destruct (id_mismatch d').
        -- injection H as _ _ <-. exists 1. split; [lia|reflexivity].
        -- apply IH in H. destruct H as (m & Hm & ->). exists (S m).
           split; [lia|]. simpl. now rewrite <- app_assoc.
    + injection H as _ _ <-. exists 0. simpl. split; [lia|now rewrite app_nil_r].
Qed.

(** When the first step exists it is invoked. *)
Lemma run_steps_first (n v : nat) (d : db) (tr : list call)
      (o : outcome) (s' : store) (tr' : list call) :
  has_step v = true ->
  run_steps (S n) v d tr = (o, s', tr') ->
  exists m, tr' = tr ++ map Step (seq v (S m)).
Proof.
  unfold has_step. intros Hs H. simpl in H.
  destruct (step_map v) as [step|]; [|discriminate].
  destruct (step d) as [e|d'].
  - injection H as _ _ <-. now exists 0.
  - destruct (id_mismatch d').
    + injection H as _ _ <-. now exists 0.
    + apply run_steps_trace in H. destruct H as (m & _ & ->). exists m.
      simpl. now rewrite <- app_assoc.
Qed.

(** A run of steps that ends with a raised error: the error is the one of
    the step it stopped at, and the store is the one the steps before it
    left, at the version of that step. *)
Lemma run_steps_raised (n v : nat) (d : db) (tr : list call) (e : E)
      (s' : store) (tr' : list call) :
  run_steps n v d tr = (Raised e, s', tr') ->
  version d = Some v -> id_mismatch d = false ->
  exists k step dk,
    v <= k < v + n /\ tr' = tr ++ map Step (seq v (S (k - v))) /\
    step_map k = Some step /\ step dk = inl e /\
    s' = Initialized dk /\ version dk = Some k /\ id_mismatch dk = false.
Proof.
  revert v d tr. induction n as [|n IH]; intros v d tr H Hv Hid; simpl in H.
  - discriminate.
  - destruct (step_map v) as [step|] eqn:Es; [|discriminate].
    destruct (step d) as [e'|d'] eqn:Ed.
    + injection H as <- <- <-. exists v, step, d.
      replace (v - v) with 0 by lia. repeat split; auto; lia.
    + destruct (id_mismatch d') eqn:Em; [discriminate|].
      apply IH in H; [|reflexivity|exact Em].
      destruct H as (k & step' & dk & Hk & -> & H).
      exists k, step', dk. split; [lia|]. split; [|exact H].
      rewrite <- app_assoc. f_equal.
      replace (S (k - v)) with (S (S (k - S v))) by lia. reflexivity.
Qed.

Lemma run_steps_done (n v : nat) (d : db) (tr : list call)
      (s' : store) (tr' : list call) :
  run_steps n v d tr = (Done, s', tr') ->
  version d = Some v -> id_mismatch d = false ->
  exists d1, s' = Initialized d1 /\ version d1 = Some (v + n) /\
             id_mismatch d1 = false.
Proof.
  revert v d tr. induction n as [|n IH]; intros v d tr H Hv Hid; simpl in H.
  - injection H as <- _. exists (set_id_if_absent d).
    destruct (set_id_if_absent_ok d Hid) as [H1 H2].
    rewrite H1, Hv, Nat.add_0_r. auto.
  - destruct (step_map v) as [step|]; [|discriminate].
    destruct (step d) as [e'|d']; [discriminate|].
    destruct (id_mismatch d') eqn:Em; [discriminate|].
    apply IH in H; [|reflexivity|exact Em].
    destruct H as (d1 & -> & H1 & H2). exists d1.
    replace (v + S n) with (S v + n) by lia. auto.
Qed.

(** The store after [n] steps in a row, from version [v] on, have each
    returned and left the identity as it should be; [None] when one of
    them is missing, raises, or changes the identity. *)
Fixpoint succeed (n v : nat) (d : db) : option db :=
  match n with
  | O => Some d
  | S n' =>
      match step_map v with
      | None => None
      | Some step =>
          match step d with
          | inl _ => None
          | inr d' =>
              if id_mismatch d' then None
              else succeed n' (S v) (set_version d' (S v))
          end
      end
  end.

Lemma succeed_version (n v : nat) (d dk : db) :
  version d = Some v -> id_mismatch d = false ->
  succeed n v d = Some dk ->
  version dk = Some (v + n) /\ id_mismatch dk = false.
Proof.
  revert v d. induction n as [|n IH]; intros v d Hv Hid H; simpl in H.
  - injection H as <-. now rewrite Nat.add_0_r.
  - destruct (step_map v) as [step|]; [|discriminate].
    destruct (step d) as [e|d']; [discriminate|].
    destruct (id_mismatch d') eqn:Em; [discriminate|].
    apply IH in H; [|reflexivity|exact Em].
    now replace (v + S n) with (S v + n) by lia.
Qed.

(** When the steps before that of version [v + m] succeed and that one
    raises, the run stops there: the error is carried as it is and the
    store is the one those steps left. *)
Lemma run_steps_raises (n m v : nat) (d dk : db) (tr : list call)
      (step : db -> E + db) (e : E) :
  m < n -> succeed m v d = Some dk ->
  step_map (v + m) = Some step -> step dk = inl e ->
  run_steps n v d tr =
  (Raised e, Initialized dk, tr ++ map Step (seq v (S m))).
Proof.
  revert m v d tr. induction n as [|n IH]; intros m v d tr Hm Hs Hk He; [lia|].
  destruct m as [|m]; simpl in Hs.
  - injection Hs as ->. rewrite Nat.add_0_r in Hk.
    cbn [run_steps]. now rewrite Hk, He.
  - cbn [run_steps].
    destruct (step_map v) as [step0|]; [|discriminate].
    destruct (step0 d) as [e0|d']; [discriminate|].
    destruct (id_mismatch d'); [discriminate|].
    assert (Hk' : step_map (S v + m) = Some step)
      by now replace (S v + m) with (v + S m) by lia.
    assert (Hm' : m < n) by lia.
    rewrite (IH m (S v) _ (tr ++ [Step v]) Hm' Hs Hk' He).
    rewrite <- app_assoc. reflexivity.
Qed.

(** On a store that has tables [creator] is not invoked, and the steps
    invoked start at the stored version. *)
Lemma migrate_trace (d : db) (v : nat) (o : outcome) (s' : store)
      (tr : list call) :
  version d = Some v ->
  migrate (Initialized d) = (o, s', tr) ->
  exists m, tr = map Step (seq v m).
Proof.
  intros Hv H. unfold migrate in H. rewrite Hv in H.
  destruct failed_checks; [|injection H as _ _ <-; now exists 0].
  destruct (id_mismatch d); [injection H as _ _ <-; now exists 0|].
  destruct (target_version <? v); [injection H as _ _ <-; now exists 0|].
  destruct (v =? target_version); [injection H as _ _ <-; now exists 0|].
  destruct (forallb has_step _); [|injection H as _ _ <-; now exists 0].
  apply run_steps_trace in H. destruct H as (m & _ & ->). now exists m.
Qed.

(** A run that ends well leaves a store at the target version whose
    identity does not mismatch. *)
Lemma migrate_done (s s' : store) (tr : list call) :
  migrate s = (Done, s', tr) ->
  failed_checks = [] /\
  exists d1, s' = Initialized d1 /\ version d1 = Some target_version /\
             id_mismatch d1 = false.
Proof.
  unfold migrate. destruct failed_checks; [|discriminate].
  intros H. split; [reflexivity|]. destruct s as [|d].
  - destruct (creator tt) as [e|sch]; [discriminate|].
    injection H as <- _. eexists. split; [reflexivity|]. split; [reflexivity|].
    unfold id_mismatch; simpl. now rewrite Z.eqb_refl.
  - destruct (id_mismatch d) eqn:Em; [discriminate|].
    destruct (version d) as [v|] eqn:Ev; [|discriminate].
    destruct (target_version <? v) eqn:E1; [discriminate|].
    destruct (v =? target_version) eqn:E2.
    + injection H as <- _. apply Nat.eqb_eq in E2. subst v. now exists d.
    + destruct (forallb has_step _); [|discriminate].
      apply run_steps_done in H; [|exact Ev|exact Em].
      destruct H as (d1 & -> & H1 & H2). exists d1.
      apply Nat.ltb_ge in E1. replace (v + (target_version - v)) with target_version in H1 by lia.
      auto.
Qed.

(** C6: on a store whose version is the target, [migrate] invokes neither
    [creator] nor a step and leaves the store as it is; it ends well when
    the requirements hold and the identity does not mismatch.  In
    particular, after a run that ended well, a second run invokes nothing
    and changes nothing. *)
Theorem migrate_current_version_noop :
  (forall d, version d = Some target_version ->
     snd (migrate (Initialized d)) = [] /\
     snd (fst (migrate (Initialized d))) = Initialized d /\
     (failed_checks = [] -> id_mismatch d = false ->
      migrate (Initialized d) = (Done, Initialized d, []))) /\
  (forall s s1 tr, migrate s = (Done, s1, tr) -> migrate s1 = (Done, s1, [])).
Proof.
  assert (H0 : forall d, version d = Some target_version ->
     snd (migrate (Initialized d)) = [] /\
     snd (fst (migrate (Initialized d))) = Initialized d /\
     (failed_checks = [] -> id_mismatch d = false ->
      migrate (Initialized d) = (Done, Initialized d, []))).
  { intros d Hv. unfold migrate. rewrite Hv, Nat.ltb_irrefl, Nat.eqb_refl.
    destruct failed_checks; [|repeat split; intros; discriminate].
    destruct (id_mismatch d); repeat split; intros; discriminate. }
  split; [exact H0|].
  intros s s1 tr H. apply migrate_done in H.
  destruct H as (Hf & d1 & -> & Hv & Hid). now apply H0.
Qed.

End Engine.

Arguments Done {E}.
Arguments Uninitialized {Schema}.

Section Retry.
Variables (Schema E : Type).
Variable failed_checks : list string.
Variable creator : unit -> E + Schema.
Variable target_version : nat.
Variable expected_id : Z.

(** A run on a store left at version [k] invokes no step of a lower
    version, and begins with the step of version [k] when it has the
    steps it needs. *)
Lemma retry_resumes
      (step_map' : nat -> option (db Schema -> E + db Schema))
      (dk : db Schema) (k : nat) (o : outcome E) (s'' : store Schema)
      (tr' : list call) :
  failed_checks = [] -> version dk = Some k ->
  id_mismatch expected_id dk = false -> k < target_version ->
  migrate failed_checks creator target_version step_map' expected_id
          (Initialized dk) = (o, s'', tr') ->
  (exists m, tr' = map Step (seq k m)) /\
  (forallb (has_step step_map') (seq k (target_version - k)) = true ->
   exists m, tr' = map Step (seq k (S m))).
Proof.
  intros Hf Hvk Hidk Hk H. split.
  - eapply migrate_trace; eassumption.
  - intros Hall. unfold migrate in H. rewrite Hf, Hvk, Hidk, Hall in H.
    replace (target_version <? k) with false in H
      by (symmetry; apply Nat.ltb_ge; lia).
    replace (k =? target_version) with false in H
      by (symmetry; apply Nat.eqb_neq; lia).
    destruct (target_version - k) as [|n] eqn:En; [lia|].
    simpl in Hall. apply andb_prop in Hall. destruct Hall as [Hk' _].
    apply run_steps_first in H; [|exact Hk']. exact H.
Qed.

(** A raised error can only be that of a step: when a run on a store that
    has tables ends with a raised error, a step raised it, on the store
    the steps before it left. *)
Lemma raised_by_step
      (step_map : nat -> option (db Schema -> E + db Schema))
      (d : db Schema) (v : nat) (e : E) (s' : store Schema)
      (tr : list call) :
  version d = Some v ->
  migrate failed_checks creator target_version step_map expected_id
          (Initialized d) = (Raised e, s', tr) ->
  exists k step dk,
    v <= k < target_version /\
    tr = map Step (seq v (S (k - v))) /\
    step_map k = Some step /\ step dk = inl e /\
    s' = Initialized dk /\ version dk = Some k.
Proof.
  intros Hv H. unfold migrate in H. rewrite Hv in H.
  destruct failed_checks as [|c cs] eqn:Hf; [|discriminate].
  destruct (id_mismatch expected_id d) eqn:Hid; [discriminate|].
  destruct (target_version <? v) eqn:E1; [discriminate|].
  destruct (v =? target_version) eqn:E2; [discriminate|].
  destruct (forallb _ _); [|discriminate].
  apply Nat.ltb_ge in E1. apply Nat.eqb_neq in E2.
  apply run_steps_raised in H; [|exact Hv|exact Hid].
  destruct H as (k & step & dk & Hk & Htr & Hs & He & -> & Hvk & Hidk).
  exists k, step, dk. split; [lia|]. auto 10.
Qed.

(** C5: on a store that has tables, at version [v], when the steps of the
    versions from [v] up to [k] return and the step of version [k] raises
    [e], the run ends with [e] as it was raised, having invoked the steps
    from [v] to [k] once each, in order; the store is the one the steps
    before [k] left, at version [k]; and a later run, whatever its steps
    are, invokes no step of a lower version, and begins with the step
    that failed when it has the steps it needs. *)
Theorem step_error_propagates
        (step_map : nat -> option (db Schema -> E + db Schema))
        (d dk : db Schema) (v k : nat) (step : db Schema -> E + db Schema)
        (e : E) :
  failed_checks = [] ->
  id_mismatch expected_id d = false ->
  version d = Some v ->
  v <= k < target_version ->
  forallb (has_step step_map) (seq v (target_version - v)) = true ->
  succeed step_map expected_id (k - v) v d = Some dk ->
  step_map k = Some step -> step dk = inl e ->
  migrate failed_checks creator target_version step_map expected_id
          (Initialized d)
  = (Raised e, Initialized dk, map Step (seq v (S (k - v)))) /\
  version dk = Some k /\
  forall step_map' o s'' tr',
    migrate failed_checks creator target_version step_map' expected_id
            (Initialized dk) = (o, s'', tr') ->
    (exists m, tr' = map Step (seq k m)) /\
    (forallb (has_step step_map') (seq k (target_version - k)) = true ->
     exists m, tr' = map Step (seq k (S m))).
Proof.
  intros Hf Hid Hv Hk Hall Hs Hstep He.
  destruct (@succeed_version Schema E step_map expected_id (k - v) v d dk
              Hv Hid Hs) as [Hvk Hidk].
  replace (v + (k - v)) with k in Hvk by lia.
  split; [|split; [exact Hvk|]].
  - unfold migrate. rewrite Hf, Hid, Hv, Hall.
    replace (target_version <? v) with false
      by (symmetry; apply Nat.ltb_ge; lia).
    replace (v =? target_version) with false
      by (symmetry; apply Nat.eqb_neq; lia).
    apply (@run_steps_raises Schema E step_map expected_id
             (target_version - v) (k - v) v d dk [] step e);
      try assumption; [lia|].
    now replace (v + (k - v)) with k by lia.
  - intros step_map' o s'' tr' H.
    eapply retry_resumes; try eassumption. lia.
Qed.

(** The error of [creator] is carried as it was raised as well, and the
    store stays without tables. *)
Lemma creator_error_propagates
      (step_map : nat -> option (db Schema -> E + db Schema)) (e : E) :
  failed_checks = [] -> creator tt = inl e ->
  migrate failed_checks creator target_version step_map expected_id
          Uninitialized = (Raised e, Uninitialized, [Creator]).
Proof. intros Hf He. unfold migrate. now rewrite Hf, He. Qed.
End Retry.

(** *** The functions of [tests/test_sqlite_utils.py]

    A schema is the list of the columns of the table [t]. *)

Definition create_db_2_error (_ : unit) : string + list string := inl "create"%string.

Definition update_from_1_to_2 (d : db (list string))
  : string + db (list string) :=
  inr {| schema := schema d ++ ["two"%string]; version := version d;
         app_id := app_id d |}.

Definition update_from_2_to_3_error (d : db (list string))
  : string + db (list string) :=
  inl "update"%string.

Definition steps (v : nat) : option (db (list string) -> string + db (list string)) :=
  match v with
  | 1 => Some update_from_1_to_2
  | 2 => Some update_from_2_to_3_error
  | _ => None
  end.

Lemma step_error_propagates_witness :
  migrate [] create_db_2_error 3 steps 0%Z
          (Initialized {| schema := ["one"%string]; version := Some 1;
                          app_id := Some 0%Z |}) =
  (Raised "update"%string,
   Initialized {| schema := ["one"; "two"]%string; version := Some 2;
                  app_id := Some 0%Z |},
   [Step 1; Step 2]).
Proof.
  apply (@step_error_propagates (list string) string [] create_db_2_error 3 0%Z
           steps {| schema := ["one"%string]; version := Some 1;
                    app_id := Some 0%Z |}
           {| schema := ["one"; "two"]%string; version := Some 2;
              app_id := Some 0%Z |}
           1 2 update_from_2_to_3_error "update"%string);
    try reflexivity. lia.
Defined.

Lemma migrate_current_version_noop_witness :
  migrate [] create_db_2_error 2 steps 0%Z
          (Initialized {| schema := ["one"; "two"]%string; version := Some 2;
                          app_id := Some 0%Z |}) =
  (Done,
   Initialized {| schema := ["one"; "two"]%string; version := Some 2;
                  app_id := Some 0%Z |},
   []).
Proof.
  exact (proj2 (proj2 (proj1
           (@migrate_current_version_noop (list string) string []
              create_db_2_error 2 steps 0%Z)
           {| schema := ["one"; "two"]%string; version := Some 2;
              app_id := Some 0%Z |} eq_refl)) eq_refl eq_refl).
Defined.

End Migration.

(** ** The chunked index update

    [reader/_search.py] and the storage it reads are not among the sources;
    the update is modelled from sections 4.1 and 4.3 of the specification. *)

Module Search.

Section Index.

(** Modelled from the spec: the source rows of [update_index], which is
    missing.  [key] is the sort-key projection of a row, the cursor of the
    keyset pagination, compared with [ltb]; [document] derives the search
    document of a row and [score] is the relevance of a document for a
    query, if it matches. *)
Variables (Row K Doc : Type).
Variable key : Row -> K.
Variable ltb : K -> K -> bool.
Variable document : Row -> Doc.
Variable score : string -> Doc -> option Z.

(** The predicate the cursor adds: the key of the row is after [last]. *)
Definition after (last : option K) (r : Row) : bool :=
  match last with
  | None => true
  | Some c => ltb c (key r)
  end.








(** *** The scan goes through every row once, in key order *)

Hypothesis ltb_asym : forall a b, ltb a b = true -> ltb b a = false.
Hypothesis le_trans :
  forall a b c, ltb b a = false -> ltb c b = false -> ltb c a = false.
Hypothesis ltb_total : forall a b, ltb a b = false -> ltb b a = false -> a = b.

Local Abbreviation ins := (Py.insert_stable key ltb).
Local Abbreviation srt := (Py.sorted key ltb).
Local Abbreviation le := (Py.key_le key ltb).

Definition before (a b : Row) : Prop := ltb (key a) (key b) = true.

Lemma ltb_irrefl (a : K) : ltb a a = false.
Proof.
  destruct (ltb a a) eqn:H; [|reflexivity].
  pose proof (ltb_asym H) as H'. congruence.
Qed.














End Index.

(** *** The entries of [test_search_entries_order_weights]

    A row is the number of an entry and its title. *)





End Search.
